(** * nano-frontend: the grid slicer and the ZIP archive builder

    A shallow embedding of the self-contained algorithms of
    [src/pages/SlicerPage.tsx]: the stop/fraction derivation, the slicing
    loop of [performSlice], the breakpoint updates, the CRC-32 checksum and
    the stored-only ZIP writer [buildZipBlob].

    Conventions of the embedding.
    - A JavaScript [number] is a finite value, NaN or one of the two
      infinities.  Finite values are carried as rationals; the sign of zero
      is not modelled.  The first sections compute [+], [-], [*] and [/]
      exactly: they carry the statements that read the same whatever the
      rounding (the shape of the stops, the recurrence of the accumulator,
      the clamping of the counts).  The module [Double] embeds the geometry
      with the arithmetic of the language, where every result is rounded to
      the nearest binary64 value: it carries the statements that depend on
      the values computed (the breakpoints the component stores, the
      rectangles of the slicing loop).
    - 32-bit integer operators ([&], [^], [>>>], [<<]) work on [Z] with the
      conversions [ToInt32] / [ToUint32] written out.
    - Typed arrays of bytes are [list byte]; [DataView] writes are list
      updates at a byte position, little endian.
    - Component state ([useState]) and the module-level CRC table cache are
      passed explicitly. *)

From Stdlib Require Import String Ascii ZArith QArith Qround Qabs Qpower Qminmax.
From Stdlib Require Import Bool Arith List Lia Lqa.
From coqutil Require Import Byte Word.LittleEndianList.
Import ListNotations.

(* ================================================================== *)
(** ** JavaScript numbers *)
(* ================================================================== *)

Inductive number : Type :=
| Num (q : Q)
| NaN
| Infinity
| NegInfinity.

Declare Scope js_scope.
Delimit Scope js_scope with js.
Bind Scope js_scope with number.

Definition ofZ (z : Z) : number := Num (inject_Z z).
Definition ofNat (n : nat) : number := ofZ (Z.of_nat n).

(** [a <= b] and [a < b]: every comparison with NaN is false. *)
Definition num_le (a b : number) : bool :=
  match a, b with
  | NaN, _ | _, NaN => false
  | NegInfinity, _ => true
  | _, Infinity => true
  | Num x, Num y => Qle_bool x y
  | _, _ => false
  end.

Definition num_lt (a b : number) : bool :=
  match a, b with
  | NaN, _ | _, NaN => false
  | Num x, Num y => negb (Qle_bool y x)
  | Infinity, _ => false
  | _, NegInfinity => false
  | _, _ => true
  end.

Definition num_add (a b : number) : number :=
  match a, b with
  | NaN, _ | _, NaN => NaN
  | Num x, Num y => Num (x + y)
  | Infinity, NegInfinity | NegInfinity, Infinity => NaN
  | Infinity, _ | _, Infinity => Infinity
  | NegInfinity, _ | _, NegInfinity => NegInfinity
  end.

Definition num_sub (a b : number) : number :=
  match a, b with
  | NaN, _ | _, NaN => NaN
  | Num x, Num y => Num (x - y)
  | Infinity, Infinity | NegInfinity, NegInfinity => NaN
  | Infinity, _ | _, NegInfinity => Infinity
  | NegInfinity, _ | _, Infinity => NegInfinity
  end.

(** The sign of a finite value, used by [*] and [/] on infinities. *)
Definition signed (positive : bool) : number :=
  if positive then Infinity else NegInfinity.

Definition num_mul (a b : number) : number :=
  match a, b with
  | NaN, _ | _, NaN => NaN
  | Num x, Num y => Num (x * y)
  | Infinity, Infinity | NegInfinity, NegInfinity => Infinity
  | Infinity, NegInfinity | NegInfinity, Infinity => NegInfinity
  | Infinity, Num y | Num y, Infinity =>
      if Qeq_bool y 0 then NaN else signed (Qle_bool 0 y)
  | NegInfinity, Num y | Num y, NegInfinity =>
      if Qeq_bool y 0 then NaN else signed (negb (Qle_bool 0 y))
  end.

Definition num_div (a b : number) : number :=
  match a, b with
  | NaN, _ | _, NaN => NaN
  | Num x, Num y =>
      if Qeq_bool y 0
      then (if Qeq_bool x 0 then NaN else signed (Qle_bool 0 x))
      else Num (x / y)
  | Num _, _ => Num 0
  | Infinity, Num y => signed (Qle_bool 0 y)
  | NegInfinity, Num y => signed (negb (Qle_bool 0 y))
  | _, _ => NaN
  end.

Infix "+" := num_add : js_scope.
Infix "-" := num_sub : js_scope.
Infix "*" := num_mul : js_scope.
Infix "/" := num_div : js_scope.
Infix "<=?" := num_le : js_scope.
Infix "<?" := num_lt : js_scope.

Module Math.
(** [Math.max] and [Math.min] return NaN as soon as one argument is NaN. *)
Definition max (a b : number) : number :=
  match a, b with
  | NaN, _ | _, NaN => NaN
  | _, _ => if num_le a b then b else a
  end.

Definition min (a b : number) : number :=
  match a, b with
  | NaN, _ | _, NaN => NaN
  | _, _ => if num_le a b then a else b
  end.

(** [Math.round]: the nearest integer, ties towards +Infinity. *)
Definition round (a : number) : number :=
  match a with
  | Num q => ofZ (Qfloor (q + (1 # 2)))
  | _ => a
  end.
End Math.

Module Number.
Definition isFinite (a : number) : bool :=
  match a with Num _ => true | _ => false end.
End Number.

(** [ToIntegerOrInfinity] of the language specification: NaN becomes 0, a
    finite value is truncated towards zero. *)
Inductive integerOrInfinity : Type :=
| IntFin (k : Z)
| IntPosInf
| IntNegInf.

Definition truncate (q : Q) : Z :=
  if Qle_bool 0 q then Qfloor q else Qceiling q.

Definition ToIntegerOrInfinity (a : number) : integerOrInfinity :=
  match a with
  | NaN => IntFin 0
  | Infinity => IntPosInf
  | NegInfinity => IntNegInf
  | Num q => IntFin (truncate q)
  end.

(** [ToLength]: clamps [ToIntegerOrInfinity] into [0, 2^53 - 1]. *)
Definition ToLength (a : number) : Z :=
  match ToIntegerOrInfinity a with
  | IntNegInf => 0
  | IntPosInf => 2 ^ 53 - 1
  | IntFin k => Z.min (Z.max k 0) (2 ^ 53 - 1)
  end.

(** ** Arrays of numbers

    A [number[]] is a list.  Reading past the end gives [undefined], which
    every arithmetic operator and [Math] function of this file turns into
    NaN; a write past the end extends the array, and the holes it leaves
    read as [undefined] too.  Both are therefore represented by NaN. *)

Definition arrayGet (a : list number) (i : nat) : number := nth i a NaN.

Fixpoint replaceAt (a : list number) (i : nat) (v : number) : list number :=
  match a, i with
  | [], _ => []
  | _ :: rest, O => v :: rest
  | x :: rest, S i' => x :: replaceAt rest i' v
  end.

Definition arraySet (a : list number) (i : nat) (v : number) : list number :=
  if (i <? length a)%nat then replaceAt a i v
  else a ++ repeat NaN (i - length a) ++ [v].

(** [a.slice(0, end)]: a negative [end] counts from the end of the array. *)
Definition sliceTo {A : Type} (end_ : number) (a : list A) : list A :=
  match ToIntegerOrInfinity end_ with
  | IntNegInf => []
  | IntPosInf => a
  | IntFin k =>
      if (k <? 0)%Z
      then firstn (Z.to_nat (Z.max (Z.of_nat (length a) + k) 0)) a
      else firstn (Z.to_nat k) a
  end.

(* ================================================================== *)
(** ** Grid geometry (SlicerPage.tsx, lines 29-48) *)
(* ================================================================== *)

Local Open Scope js_scope.


Definition clampValue (value min max : number) : number :=
  Math.min (Math.max value min) max.

(** [Array.from({ length: count - 1 }, (_, i) => (i + 1) / count)].
    [Array.from] throws a RangeError when the length exceeds 2^32 - 1:
    that is the [None] below. *)
Definition buildEvenSplits (count : number) : option (list number) :=
  if count <=? Num 1 then Some []
  else
    let len := ToLength (count - Num 1) in
    if (2 ^ 32 - 1 <? len)%Z then None
    else Some (map (fun i => (ofNat i + Num 1) / count) (seq 0 (Z.to_nat len))).

Definition buildStops (count : number) (splits : list number) : list number :=
  if count <=? Num 1 then [Num 0; Num 1]
  else
    let trimmed :=
      map (fun value => clampValue value (Num 0) (Num 1))
          (sliceTo (count - Num 1) splits) in
    [Num 0] ++ trimmed ++ [Num 1].

(** [a.map((x, index) => f(x, index))], the index counted from [index]. *)
Fixpoint mapi {A B : Type} (f : A -> nat -> B) (index : nat) (l : list A) : list B :=
  match l with
  | [] => []
  | x :: rest => f x index :: mapi f (S index) rest
  end.

(** [stops.slice(1).map((stop, index) => Math.max(0, stop - stops[index]))] *)
Definition buildFractions (stops : list number) : list number :=
  mapi (fun stop index => Math.max (Num 0) (stop - arrayGet stops index))
       0 (tl stops).

(* ================================================================== *)
(** ** The custom grid state and its counts (lines 201-204, 413-425) *)
(* ================================================================== *)

(** The four [useState] cells of the custom mode. *)
Record GridState : Type := {
  customRows : number;
  customCols : number;
  customRowSplits : list number;
  customColSplits : list number
}.



(** A breakpoint update on either axis, for sequences of updates. *)
Inductive splitUpdate : Type :=
| RowSplit (index : nat) (value : number)
| ColSplit (index : nat) (value : number).

(* ================================================================== *)
(** ** The slicing loop of [performSlice] (lines 541-604) *)
(* ================================================================== *)

(** The source rectangle handed to [drawImage] for one slice, with its grid
    position.  The grid counts are integers in the component (a slice mode
    or a [parseInt] input), hence [nat]; image sizes are integers.  The
    canvas, its 2D context and the encoding of the pixels belong to the
    browser and are left out. *)
Record SliceRect : Type := {
  row : nat;
  col : nat;
  startX : number;
  startY : number;
  sliceWidth : number;
  sliceHeight : number
}.

(** Body of the inner [for (col ...)] loop.  The loop state is the
    accumulator [x] and the slices produced so far; slice [row, col] is
    stored at index [row * gridColCount + col], the order of production. *)
Definition colBody (imgWidth : Z) (gridColCount : nat) (colSizes : list number)
    (row_ : nat) (startY_ sliceHeight_ : number)
    (st : number * list SliceRect) (col_ : nat) : number * list SliceRect :=
  let '(x, newSlices) := st in
  let startX_ := Math.round x in
  let nextX :=
    if (col_ =? gridColCount - 1)%nat then ofZ imgWidth
    else Math.round (x + arrayGet colSizes col_) in
  let sliceWidth_ := Math.max (Num 1) (nextX - startX_) in
  (nextX,
   newSlices ++ [{| row := row_; col := col_; startX := startX_; startY := startY_;
                    sliceWidth := sliceWidth_; sliceHeight := sliceHeight_ |}]).

(** The state of the inner loop of row [row_] after its first [cols]
    iterations; it starts with [x = 0]. *)
Definition colLoop (imgWidth : Z) (gridColCount : nat) (colSizes : list number)
    (row_ : nat) (startY_ sliceHeight_ : number) (newSlices : list SliceRect)
    (cols : nat) : number * list SliceRect :=
  fold_left (colBody imgWidth gridColCount colSizes row_ startY_ sliceHeight_)
            (seq 0 cols) (Num 0, newSlices).

(** Body of the outer [for (row ...)] loop; the state is the accumulator
    [y] and the slices produced so far. *)
Definition rowBody (imgWidth imgHeight : Z) (gridRowCount gridColCount : nat)
    (rowSizes colSizes : list number)
    (st : number * list SliceRect) (row_ : nat) : number * list SliceRect :=
  let '(y, newSlices) := st in
  let startY_ := Math.round y in
  let nextY :=
    if (row_ =? gridRowCount - 1)%nat then ofZ imgHeight
    else Math.round (y + arrayGet rowSizes row_) in
  let sliceHeight_ := Math.max (Num 1) (nextY - startY_) in
  let inner :=
    colLoop imgWidth gridColCount colSizes row_ startY_ sliceHeight_ newSlices
            gridColCount in
  (nextY, snd inner).

(** The state of the outer loop after its first [rows] iterations. *)
Definition sliceLoop (imgWidth imgHeight : Z) (gridRowCount gridColCount : nat)
    (rowFractions colFractions : list number) (rows : nat) : number * list SliceRect :=
  let rowSizes := map (fun fraction => fraction * ofZ imgHeight) rowFractions in
  let colSizes := map (fun fraction => fraction * ofZ imgWidth) colFractions in
  fold_left (rowBody imgWidth imgHeight gridRowCount gridColCount rowSizes colSizes)
            (seq 0 rows) (Num 0, []).

Definition performSlice (imgWidth imgHeight : Z) (gridRowCount gridColCount : nat)
    (rowFractions colFractions : list number) : list SliceRect :=
  snd (sliceLoop imgWidth imgHeight gridRowCount gridColCount
                 rowFractions colFractions gridRowCount).

(** The slices of a grid of [rows] x [cols] cells with the given
    breakpoints: lines 254-257 followed by [performSlice]. *)
Definition sliceGrid (imgWidth imgHeight : Z) (rows cols : nat)
    (rowSplits colSplits : list number) : list SliceRect :=
  performSlice imgWidth imgHeight rows cols
    (buildFractions (buildStops (ofNat rows) rowSplits))
    (buildFractions (buildStops (ofNat cols) colSplits)).

(* ================================================================== *)
(** ** 32-bit integer operators *)
(* ================================================================== *)

Local Close Scope js_scope.
Local Open Scope Z_scope.

Definition ToInt32 (z : Z) : Z := (z + 2 ^ 31) mod 2 ^ 32 - 2 ^ 31.
Definition ToUint32 (z : Z) : Z := z mod 2 ^ 32.

(** [a & b], [a | b], [a ^ b], [a << n]: signed 32-bit results. *)
Definition bitand (a b : Z) : Z := ToInt32 (Z.land (ToInt32 a) (ToInt32 b)).
Definition bitor (a b : Z) : Z := ToInt32 (Z.lor (ToInt32 a) (ToInt32 b)).
Definition bitxor (a b : Z) : Z := ToInt32 (Z.lxor (ToInt32 a) (ToInt32 b)).
Definition shl (a n : Z) : Z := ToInt32 (Z.shiftl (ToInt32 a) (n mod 32)).
(** [a >>> n]: unsigned 32-bit result. *)
Definition ushr (a n : Z) : Z := Z.shiftr (ToUint32 a) (n mod 32).

(* ================================================================== *)
(** ** CRC-32 (lines 59-82) *)
(* ================================================================== *)

(** The inner [for (k ...)] loop body: one bit of the reflected division. *)
Definition crcBit (c : Z) : Z :=
  if bitand c 1 =? 0 then ushr c 1 else bitxor 0xedb88320 (ushr c 1).

(** [table[i] = c >>> 0] after the eight iterations started at [c = i]. *)
Definition crcTableEntry (i : nat) : Z :=
  ushr (Nat.iter 8 crcBit (Z.of_nat i)) 0.

Definition makeCrcTable : list Z := map crcTableEntry (seq 0 256).

(** The module-level [let crcTable: Uint32Array | null]. *)
Definition CrcCache : Type := option (list Z).

Definition getCrcTable (crcTable : CrcCache) : list Z * CrcCache :=
  match crcTable with
  | Some table => (table, crcTable)
  | None => let table := makeCrcTable in (table, Some table)
  end.

(** One iteration of the byte loop.  A typed-array read out of range gives
    [undefined], which [^] takes as 0. *)
Definition crcByte (table : list Z) (crc : Z) (b : byte) : Z :=
  bitxor (ushr crc 8)
         (nth (Z.to_nat (bitand (bitxor crc (byte.unsigned b)) 0xff)) table 0).

Definition crc32 (crcTable : CrcCache) (data : list byte) : Z * CrcCache :=
  let '(table, crcTable') := getCrcTable crcTable in
  let crc := fold_left (crcByte table) data 0xffffffff in
  (ushr (bitxor crc 0xffffffff) 0, crcTable').

(* ================================================================== *)
(** ** DOS time stamps (lines 84-94) *)
(* ================================================================== *)

(** What [toDosDate] reads from a [Date]: its local-time fields. *)
Record Date : Type := {
  getFullYear : Z;
  getMonth : Z;
  getDate : Z;
  getHours : Z;
  getMinutes : Z;
  getSeconds : Z
}.

Record DosStamp : Type := { dosTime : Z; dosDate : Z }.

Definition toDosDate (date : Date) : DosStamp :=
  let year := Z.max 1980 (getFullYear date) in
  let month := getMonth date + 1 in
  let day := getDate date in
  let hours := getHours date in
  let minutes := getMinutes date in
  let seconds := getSeconds date / 2 in
  {| dosTime := bitor (bitor (shl hours 11) (shl minutes 5)) seconds;
     dosDate := bitor (bitor (shl (year - 1980) 9) (shl month 5)) day |}.

(* ================================================================== *)
(** ** DataView writes and reads *)
(* ================================================================== *)

(** Overwrites [length bytes] bytes of [buf] starting at [pos] (always in
    range in this file: the positions are constants inside fixed-size
    headers). *)
Definition writeAt (buf : list byte) (pos : nat) (bytes : list byte) : list byte :=
  firstn pos buf ++ bytes ++ skipn (pos + length bytes) buf.

(** [view.setUint16(pos, value, true)], [view.setUint32(pos, value, true)]:
    the value is reduced modulo 2^16, resp. 2^32. *)
Definition setUint16 (view : list byte) (pos : nat) (value : Z) : list byte :=
  writeAt view pos (le_split 2 value).
Definition setUint32 (view : list byte) (pos : nat) (value : Z) : list byte :=
  writeAt view pos (le_split 4 value).

(** The readers a ZIP consumer applies to the same positions. *)
Definition getUint16 (view : list byte) (pos : nat) : Z :=
  le_combine (firstn 2 (skipn pos view)).
Definition getUint32 (view : list byte) (pos : nat) : Z :=
  le_combine (firstn 4 (skipn pos view)).

Definition newUint8Array (n : nat) : list byte := repeat Byte.x00 n.

(* ================================================================== *)
(** ** The ZIP writer (lines 54-57, 96-161) *)
(* ================================================================== *)

Record ZipFileEntry : Type := { name : string; data : list byte }.

(** State of the [files.forEach] loop. *)
Record ZipLoop : Type := {
  parts : list (list byte);
  centralParts : list (list byte);
  offset : Z;
  crcTable : CrcCache
}.

Section ZipWriter.
(** [TextEncoder.encode], a service of the browser. *)
Variable encode : string -> list byte.

Definition localHeaderOf (now : DosStamp) (crc size nameLength : Z) : list byte :=
  let localView := newUint8Array 30 in
  let localView := setUint32 localView 0 0x04034b50 in
  let localView := setUint16 localView 4 20 in
  let localView := setUint16 localView 6 0 in
  let localView := setUint16 localView 8 0 in
  let localView := setUint16 localView 10 (dosTime now) in
  let localView := setUint16 localView 12 (dosDate now) in
  let localView := setUint32 localView 14 crc in
  let localView := setUint32 localView 18 size in
  let localView := setUint32 localView 22 size in
  let localView := setUint16 localView 26 nameLength in
  let localView := setUint16 localView 28 0 in
  localView.

Definition centralHeaderOf (now : DosStamp) (crc size nameLength offset_ : Z)
    : list byte :=
  let centralView := newUint8Array 46 in
  let centralView := setUint32 centralView 0 0x02014b50 in
  let centralView := setUint16 centralView 4 20 in
  let centralView := setUint16 centralView 6 20 in
  let centralView := setUint16 centralView 8 0 in
  let centralView := setUint16 centralView 10 0 in
  let centralView := setUint16 centralView 12 (dosTime now) in
  let centralView := setUint16 centralView 14 (dosDate now) in
  let centralView := setUint32 centralView 16 crc in
  let centralView := setUint32 centralView 20 size in
  let centralView := setUint32 centralView 24 size in
  let centralView := setUint16 centralView 28 nameLength in
  let centralView := setUint16 centralView 30 0 in
  let centralView := setUint16 centralView 32 0 in
  let centralView := setUint16 centralView 34 0 in
  let centralView := setUint16 centralView 36 0 in
  let centralView := setUint32 centralView 38 0 in
  let centralView := setUint32 centralView 42 offset_ in
  centralView.

(** Body of [files.forEach((file) => ...)]. *)
Definition entryBody (now : DosStamp) (st : ZipLoop) (file : ZipFileEntry) : ZipLoop :=
  let nameBytes := encode (name file) in
  let size := Z.of_nat (length (data file)) in
  let '(crc, crcTable') := crc32 (crcTable st) (data file) in
  let localHeader := localHeaderOf now crc size (Z.of_nat (length nameBytes)) in
  let centralHeader :=
    centralHeaderOf now crc size (Z.of_nat (length nameBytes)) (offset st) in
  {| parts := parts st ++ [localHeader; nameBytes; data file];
     centralParts := centralParts st ++ [centralHeader; nameBytes];
     offset := offset st + Z.of_nat (length localHeader)
               + Z.of_nat (length nameBytes) + size;
     crcTable := crcTable' |}.

Definition zipLoop (now : DosStamp) (crcTable0 : CrcCache) (files : list ZipFileEntry)
    : ZipLoop :=
  fold_left (entryBody now) files
    {| parts := []; centralParts := []; offset := 0; crcTable := crcTable0 |}.

Definition endRecordOf (fileCount centralSize offset_ : Z) : list byte :=
  let endView := newUint8Array 22 in
  let endView := setUint32 endView 0 0x06054b50 in
  let endView := setUint16 endView 4 0 in
  let endView := setUint16 endView 6 0 in
  let endView := setUint16 endView 8 fileCount in
  let endView := setUint16 endView 10 fileCount in
  let endView := setUint32 endView 12 centralSize in
  let endView := setUint32 endView 16 offset_ in
  let endView := setUint16 endView 20 0 in
  endView.

Definition centralSizeOf (centralParts_ : list (list byte)) : Z :=
  fold_left (fun sum part => sum + Z.of_nat (length part)) centralParts_ 0.

(** [buildZipBlob]: [date] is the value of [new Date()] read at the call,
    [crcTable0] the content of the table cache at the call.  The result is
    the sequence of chunks handed to [new Blob] and the cache left
    behind. *)
Definition buildZipBlob (date : Date) (crcTable0 : CrcCache)
    (files : list ZipFileEntry) : list (list byte) * CrcCache :=
  let now := toDosDate date in
  let st := zipLoop now crcTable0 files in
  let centralSize := centralSizeOf (centralParts st) in
  let endRecord :=
    endRecordOf (Z.of_nat (length files)) centralSize (offset st) in
  (parts st ++ centralParts st ++ [endRecord], crcTable st).

(** The bytes of the produced [Blob]. *)
Definition blobBytes (date : Date) (crcTable0 : CrcCache)
    (files : list ZipFileEntry) : list byte :=
  concat (fst (buildZipBlob date crcTable0 files)).
End ZipWriter.

(* ================================================================== *)
(** ** Notions used by the statements *)
(* ================================================================== *)

(** *** CRC-32 as the specification words it: unsigned arithmetic only *)

Definition specCrcBit (c : Z) : Z :=
  if Z.land c 1 =? 0 then Z.shiftr c 1 else Z.lxor 0xEDB88320 (Z.shiftr c 1).

Definition specCrcTable : list Z :=
  map (fun i => Nat.iter 8 specCrcBit (Z.of_nat i)) (seq 0 256).

Definition specCrcByte (c : Z) (b : byte) : Z :=
  Z.lxor (nth (Z.to_nat (Z.land (Z.lxor c (byte.unsigned b)) 0xFF)) specCrcTable 0)
         (Z.shiftr c 8).

Definition specCrc32 (data : list byte) : Z :=
  Z.land (Z.lxor (fold_left specCrcByte data 0xFFFFFFFF) 0xFFFFFFFF) 0xFFFFFFFF.

(** The same checksum without a table: eight division steps per byte. *)
Definition bitCrcByte (c : Z) (b : byte) : Z :=
  Nat.iter 8 specCrcBit (Z.lxor c (byte.unsigned b)).

Definition bitCrc32 (data : list byte) : Z :=
  Z.land (Z.lxor (fold_left bitCrcByte data 0xFFFFFFFF) 0xFFFFFFFF) 0xFFFFFFFF.

(** The bytes of an ASCII string. *)
Definition asciiBytes (s : string) : list byte := list_byte_of_string s.

(** The table cache holds nothing or the table: no other value is ever
    stored in it. *)
Definition cacheOk (c : CrcCache) : Prop := c = None \/ c = Some makeCrcTable.

(** *** ZIP layout *)

(** The running offset of the specification: it starts at [offset_] and
    grows by [30 + nameLength + contentLength] after each entry. *)
Fixpoint runningOffsets (encode : string -> list byte) (offset_ : Z)
    (files : list ZipFileEntry) : list Z :=
  match files with
  | [] => []
  | file :: rest =>
      offset_ ::
      runningOffsets encode
        (offset_ + 30 + Z.of_nat (length (encode (name file)))
         + Z.of_nat (length (data file))) rest
  end.

(** The central headers among the chunks [header, name, header, name, ...]. *)
Fixpoint headersOf (chunks : list (list byte)) : list (list byte) :=
  match chunks with
  | header :: _ :: rest => header :: headersOf rest
  | _ => []
  end.

(** The local-header offset a reader finds in a central header. *)
Definition recordedOffset (centralHeader : list byte) : Z :=
  getUint32 centralHeader 42.

(** One local entry and one central record, as sequences of bytes. *)
Definition localEntry (encode : string -> list byte) (now : DosStamp)
    (file : ZipFileEntry) : list byte :=
  localHeaderOf now (fst (crc32 None (data file)))
    (Z.of_nat (length (data file))) (Z.of_nat (length (encode (name file))))
  ++ encode (name file) ++ data file.

Definition centralRecord (encode : string -> list byte) (now : DosStamp)
    (file : ZipFileEntry) (offset_ : Z) : list byte :=
  centralHeaderOf now (fst (crc32 None (data file)))
    (Z.of_nat (length (data file))) (Z.of_nat (length (encode (name file)))) offset_
  ++ encode (name file).

Fixpoint centralRecords (encode : string -> list byte) (now : DosStamp)
    (files : list ZipFileEntry) (offsets : list Z) : list byte :=
  match files, offsets with
  | file :: files', offset_ :: offsets' =>
      centralRecord encode now file offset_
      ++ centralRecords encode now files' offsets'
  | _, _ => []
  end.

(** *** Chunks of the blob *)

Local Open Scope Z_scope.

(** The chunks one entry contributes to the local and central regions. *)
Definition localChunks (encode : string -> list byte) (now : DosStamp)
    (file : ZipFileEntry) : list (list byte) :=
  [localHeaderOf now (fst (crc32 None (data file)))
     (Z.of_nat (length (data file))) (Z.of_nat (length (encode (name file))));
   encode (name file); data file].

Definition centralChunks (encode : string -> list byte) (now : DosStamp)
    (file : ZipFileEntry) (offset_ : Z) : list (list byte) :=
  [centralHeaderOf now (fst (crc32 None (data file)))
     (Z.of_nat (length (data file))) (Z.of_nat (length (encode (name file))))
     offset_;
   encode (name file)].

Fixpoint centralChunksFrom (encode : string -> list byte) (now : DosStamp)
    (offset_ : Z) (files : list ZipFileEntry) : list (list byte) :=
  match files with
  | [] => []
  | file :: rest =>
      centralChunks encode now file offset_
      ++ centralChunksFrom encode now
           (offset_ + 30 + Z.of_nat (length (encode (name file)))
            + Z.of_nat (length (data file))) rest
  end.

(** Total size of the local entries. *)
Fixpoint localTotal (encode : string -> list byte) (files : list ZipFileEntry) : Z :=
  match files with
  | [] => 0
  | file :: rest =>
      30 + Z.of_nat (length (encode (name file))) + Z.of_nat (length (data file))
      + localTotal encode rest
  end.

(** The byte position at which chunk number [k] begins in the blob. *)
Definition chunkOffset (chunks : list (list byte)) (k : nat) : Z :=
  Z.of_nat (length (concat (firstn k chunks))).

Local Close Scope Z_scope.

(** *** Numbers *)

Local Open Scope Q_scope.

Definition isNaN (a : number) : bool :=
  match a with NaN => true | _ => false end.

(** The rational a finite number stands for. *)
Definition toQ (a : number) : Q := match a with Num q => q | _ => 0 end.


(** [a] is a finite number in the closed interval [lo, hi]. *)
Definition within (lo hi : Q) (a : number) : Prop :=
  match a with Num q => lo <= q /\ q <= hi | _ => False end.

(** The clamp [buildStops] applies to every split. *)
Definition clamp01 (value : number) : number := clampValue value (Num 0) (Num 1).

(** [0 <= a]: false for NaN. *)
Definition nonNegative (a : number) : Prop := num_le (Num 0) a = true.

(** [a] is negative: a finite negative value or -Infinity. *)
Definition negative (a : number) : Prop := num_lt a (Num 0) = true.

(** Equality of numbers up to the representation of a rational. *)
Definition numEq (a b : number) : Prop :=
  match a, b with
  | Num x, Num y => x == y
  | NaN, NaN | Infinity, Infinity | NegInfinity, NegInfinity => True
  | _, _ => False
  end.

(** The stops of finite breakpoints, as rationals. *)
Definition stopsOf (splits : list number) : list Q :=
  (0 :: map toQ splits ++ [1])%Q.

(** The differences of consecutive stops, negative ones replaced by 0. *)
Fixpoint differences (stops : list number) : list number :=
  match stops with
  | a :: (b :: _) as rest => Math.max (Num 0) (b - a)%js :: differences rest
  | _ => []
  end.

(** *** Breakpoints *)

(** Finite breakpoints, each at least [gap] above its predecessor ([lo] for
    the first) and the last at least [gap] below 1. *)
Fixpoint spaced (gap lo : Q) (splits : list number) : Prop :=
  match splits with
  | [] => lo + gap <= 1
  | Num b :: rest => lo + gap <= b /\ spaced gap b rest
  | _ :: _ => False
  end.

(** Strictly increasing finite values, all strictly between [lo] and 1. *)
Fixpoint increasingWithin (lo : Q) (splits : list number) : Prop :=
  match splits with
  | [] => True
  | Num b :: rest => lo < b /\ b < 1 /\ increasingWithin b rest
  | _ :: _ => False
  end.




(** The even default of an axis with [n] cells, [n] an integer. *)
Definition evenSplits (n : nat) : list number :=
  match buildEvenSplits (ofNat n) with
  | Some splits => splits
  | None => []
  end.



Local Close Scope Q_scope.

(** *** Pixels and rectangles *)

Local Open Scope Q_scope.

(** Pixel [(px, py)] lies in the rectangle [s]. *)
Definition covers (px py : Z) (s : SliceRect) : bool :=
  match startX s, startY s, sliceWidth s, sliceHeight s with
  | Num x, Num y, Num w, Num h =>
      Qle_bool x (inject_Z px) && negb (Qle_bool (x + w) (inject_Z px))
      && Qle_bool y (inject_Z py) && negb (Qle_bool (y + h) (inject_Z py))
  | _, _, _, _ => false
  end.

(** The number of rectangles of [slices] that contain the pixel. *)
Definition coverage (px py : Z) (slices : list SliceRect) : nat :=
  length (filter (covers px py) slices).

(** The far edges of a rectangle: its start plus its extent, exactly. *)
Definition rightEdge (s : SliceRect) : number := (startX s + sliceWidth s)%js.
Definition bottomEdge (s : SliceRect) : number := (startY s + sliceHeight s)%js.

Local Close Scope Q_scope.

(** *** The accumulators of the slicing loop *)

Local Open Scope js_scope.

(** The boundary computed from the accumulator [acc] at index [i] of an
    axis: [nextY] for a row, [nextX] for a column. *)
Definition boundaryAfter (total : Z) (count : nat) (sizes : list number)
    (acc : number) (i : nat) : number :=
  if (i =? count - 1)%nat then ofZ total
  else Math.round (acc + arrayGet sizes i).

(** [rowSizes] and [colSizes] of [performSlice]. *)
Definition sizesOf (total : Z) (fractions : list number) : list number :=
  map (fun fraction => fraction * ofZ total) fractions.



(** The start and the extent of cell [i] of an axis whose accumulator is
    [acc] before that cell. *)
Definition cellStart (acc : number) : number := Math.round acc.
Definition cellExtent (total : Z) (count : nat) (sizes : list number)
    (acc : number) (i : nat) : number :=
  Math.max (Num 1) (boundaryAfter total count sizes acc i - Math.round acc).

(** The accumulator of an axis before cell [k], as a recurrence. *)
Fixpoint accBefore (total : Z) (count : nat) (sizes : list number) (k : nat) : number :=
  match k with
  | O => Num 0
  | S k' => boundaryAfter total count sizes (accBefore total count sizes k') k'
  end.

(** The slice of row [r] and column [c] in terms of the two recurrences. *)
Definition gridCell (imgWidth imgHeight : Z) (rows cols : nat)
    (rowSizes colSizes : list number) (r c : nat) : SliceRect :=
  {| row := r; col := c;
     startX := cellStart (accBefore imgWidth cols colSizes c);
     startY := cellStart (accBefore imgHeight rows rowSizes r);
     sliceWidth := cellExtent imgWidth cols colSizes (accBefore imgWidth cols colSizes c) c;
     sliceHeight := cellExtent imgHeight rows rowSizes (accBefore imgHeight rows rowSizes r) r |}.

(** A slice of row [r] whose vertical extent is given. *)
Definition colCell (imgWidth : Z) (cols : nat) (colSizes : list number)
    (r : nat) (sy sh : number) (c : nat) : SliceRect :=
  {| row := r; col := c;
     startX := cellStart (accBefore imgWidth cols colSizes c);
     startY := sy;
     sliceWidth := cellExtent imgWidth cols colSizes (accBefore imgWidth cols colSizes c) c;
     sliceHeight := sh |}.

(** The rectangle of [w] x [h] pixels at [(x, y)], in row [r] and column
    [c] of the grid. *)
Definition rect (r c : nat) (x y w h : Z) : SliceRect :=
  {| row := r; col := c; startX := ofZ x; startY := ofZ y;
     sliceWidth := ofZ w; sliceHeight := ofZ h |}.

(** [p] lies in cell [k] of the integer boundaries [z]. *)
Definition inBand (z : nat -> Z) (p : Z) (k : nat) : bool :=
  ((z k <=? p) && (p <? z (S k)))%Z.

Local Close Scope js_scope.

(** *** Sample inputs *)

Definition sampleDate : Date :=
  {| getFullYear := 2024; getMonth := 0; getDate := 15;
     getHours := 13; getMinutes := 37; getSeconds := 58 |}.

(** The same day, two seconds later. *)
Definition laterDate : Date :=
  {| getFullYear := 2024; getMonth := 0; getDate := 15;
     getHours := 13; getMinutes := 38; getSeconds := 0 |}.

(** Three entries of 10, 0 and 25 bytes, named as [downloadSelected] names
    them. *)
Definition threeFiles : list ZipFileEntry :=
  [{| name := "1.png"; data := repeat Byte.x2a 10 |};
   {| name := "2.png"; data := [] |};
   {| name := "3.png"; data := repeat Byte.x2a 25 |}].

Definition emptyEntry : ZipFileEntry := {| name := EmptyString; data := [] |}.

(** Two entries of 2^31 bytes each, followed by an empty one. *)
Definition hugeFiles : list ZipFileEntry :=
  [{| name := "1.png"; data := repeat Byte.x00 (Z.to_nat (2 ^ 31)) |};
   {| name := "2.png"; data := repeat Byte.x00 (Z.to_nat (2 ^ 31)) |};
   {| name := "3.png"; data := [] |}].

(** 65536 entries without content. *)
Definition manyFiles : list ZipFileEntry :=
  repeat {| name := "1.png"; data := [] |} (Z.to_nat 65536).

(** *** Proof steps on rational tests *)

Ltac qbool :=
  repeat match goal with
  | H : Qle_bool _ _ = true |- _ => apply Qle_bool_iff in H
  | H : Qle_bool _ _ = false |- _ =>
      apply not_true_iff_false in H; rewrite Qle_bool_iff in H;
      apply Qnot_le_lt in H
  | H : Qeq_bool _ _ = true |- _ => apply Qeq_bool_iff in H
  | H : Qeq_bool _ _ = false |- _ => apply Qeq_bool_neq in H
  end.

(** Case analysis on every rational test of the goal. *)
Ltac qcases :=
  repeat match goal with
  | |- context [Qle_bool ?x ?y] => destruct (Qle_bool x y) eqn:?
  end; qbool.

(* ================================================================== *)
(** ** Binary64 arithmetic *)
(* ================================================================== *)

Local Open Scope Q_scope.

(** The binary exponent of a rational that is not 0:
    [2 ^ e <= |x| < 2 ^ (e + 1)]. *)
Definition exponentOf (x : Q) : Z :=
  let c := (Z.log2 (Z.abs (Qnum x)) - Z.log2 (Zpos (Qden x)))%Z in
  if Qle_bool (2 ^ c) (Qabs x) then c else (c - 1)%Z.

(** The nearest integer, a tie going to the even one. *)
Definition roundHalfEven (y : Q) : Z :=
  let f := Qfloor y in
  match Qcompare (y - inject_Z f) (1 # 2) with
  | Lt => f
  | Gt => (f + 1)%Z
  | Eq => if Z.even f then f else (f + 1)%Z
  end.

(** The nearest multiple of [2 ^ q], in lowest terms. *)
Definition roundAt (q : Z) (x : Q) : Q :=
  Qred (inject_Z (roundHalfEven (x / 2 ^ q)) * 2 ^ q).

(** Round to nearest, ties to even, with 53 significant bits; the last
    place is never below [2 ^ -1074], the spacing of the subnormal
    doubles. *)
Definition round53 (x : Q) : Q :=
  if Qeq_bool x 0 then 0
  else roundAt (Z.max (exponentOf x - 52) (-1074)) x.

Definition binary64 (x : Q) : Q := round53 (Qred x).

(** [Number.MAX_VALUE] *)
Definition MAX_VALUE : Q := inject_Z ((2 ^ 53 - 1) * 2 ^ 971).

(** The number an exact result [x] is returned as: the nearest double, or
    an infinity when the rounded value exceeds the largest finite
    double. *)
Definition toDouble (x : Q) : number :=
  let r := binary64 x in
  if Qle_bool (Qabs r) MAX_VALUE then Num r else signed (Qle_bool 0 x).

Definition rounded (a : number) : number :=
  match a with
  | Num x => toDouble x
  | _ => a
  end.

Local Close Scope Q_scope.

(* ================================================================== *)
(** ** The geometry in binary64 arithmetic

    The functions of lines 29-52, 432-460 and 541-604, line by line, with
    the operators of the language: [add], [sub], [mul] and [div] return the
    exact result rounded to a double.  A decimal literal of the source is
    the double nearest to it; the integers 0 and 1 are doubles.  [Math.max],
    [Math.min] and [Math.round] return one of their arguments or an integer,
    and do not round.  Image sizes are 32-bit integers, as the [width] and
    [height] of an [HTMLImageElement] are. *)
(* ================================================================== *)

Module Double.
Local Open Scope js_scope.

(** [a + b], [a - b], [a * b], [a / b] *)
Definition add (a b : number) : number := rounded (num_add a b).
Definition sub (a b : number) : number := rounded (num_sub a b).
Definition mul (a b : number) : number := rounded (num_mul a b).
Definition div (a b : number) : number := rounded (num_div a b).

Definition buildEvenSplits (count : number) : option (list number) :=
  if count <=? Num 1 then Some []
  else
    let len := ToLength (sub count (Num 1)) in
    if (2 ^ 32 - 1 <? len)%Z then None
    else Some (map (fun i => div (add (ofNat i) (Num 1)) count) (seq 0 (Z.to_nat len))).

Definition buildStops (count : number) (splits : list number) : list number :=
  if count <=? Num 1 then [Num 0; Num 1]
  else
    let trimmed :=
      map (fun value => clampValue value (Num 0) (Num 1))
          (sliceTo (sub count (Num 1)) splits) in
    [Num 0] ++ trimmed ++ [Num 1].

Definition buildFractions (stops : list number) : list number :=
  mapi (fun stop index => Math.max (Num 0) (sub stop (arrayGet stops index)))
       0 (tl stops).

Definition getMinGap (count : number) : number :=
  Math.min (toDouble 0.05) (div (toDouble 0.6) (Math.max count (Num 1))).

(** The state updater shared, word for word, by [updateRowSplit] and
    [updateColSplit]; [count] is [customRows], resp. [customCols]. *)
Definition updateSplit (count : number) (index : nat) (value : number)
    (prev : list number) : list number :=
  if (length prev =? 0)%nat then prev
  else
    let next := prev in
    let minGap := getMinGap count in
    let lowerBound := if (index =? 0)%nat then Num 0 else arrayGet next (index - 1) in
    let upperBound :=
      if (index =? length next - 1)%nat then Num 1 else arrayGet next (index + 1) in
    arraySet next index
      (clampValue value (add lowerBound minGap) (sub upperBound minGap)).

Definition updateRowSplit (index : nat) (value : number) (st : GridState) : GridState :=
  {| customRows := customRows st; customCols := customCols st;
     customRowSplits := updateSplit (customRows st) index value (customRowSplits st);
     customColSplits := customColSplits st |}.

Definition updateColSplit (index : nat) (value : number) (st : GridState) : GridState :=
  {| customRows := customRows st; customCols := customCols st;
     customRowSplits := customRowSplits st;
     customColSplits := updateSplit (customCols st) index value (customColSplits st) |}.

Definition applyUpdate (st : GridState) (u : splitUpdate) : GridState :=
  match u with
  | RowSplit index value => updateRowSplit index value st
  | ColSplit index value => updateColSplit index value st
  end.

Definition applyUpdates (us : list splitUpdate) (st : GridState) : GridState :=
  fold_left applyUpdate us st.

(** The bodies of the two loops of [performSlice] and the states they
    leave, as in the first embedding. *)
Definition colBody (imgWidth : Z) (gridColCount : nat) (colSizes : list number)
    (row_ : nat) (startY_ sliceHeight_ : number)
    (st : number * list SliceRect) (col_ : nat) : number * list SliceRect :=
  let '(x, newSlices) := st in
  let startX_ := Math.round x in
  let nextX :=
    if (col_ =? gridColCount - 1)%nat then ofZ imgWidth
    else Math.round (add x (arrayGet colSizes col_)) in
  let sliceWidth_ := Math.max (Num 1) (sub nextX startX_) in
  (nextX,
   newSlices ++ [{| row := row_; col := col_; startX := startX_; startY := startY_;
                    sliceWidth := sliceWidth_; sliceHeight := sliceHeight_ |}]).

Definition colLoop (imgWidth : Z) (gridColCount : nat) (colSizes : list number)
    (row_ : nat) (startY_ sliceHeight_ : number) (newSlices : list SliceRect)
    (cols : nat) : number * list SliceRect :=
  fold_left (colBody imgWidth gridColCount colSizes row_ startY_ sliceHeight_)
            (seq 0 cols) (Num 0, newSlices).

Definition rowBody (imgWidth imgHeight : Z) (gridRowCount gridColCount : nat)
    (rowSizes colSizes : list number)
    (st : number * list SliceRect) (row_ : nat) : number * list SliceRect :=
  let '(y, newSlices) := st in
  let startY_ := Math.round y in
  let nextY :=
    if (row_ =? gridRowCount - 1)%nat then ofZ imgHeight
    else Math.round (add y (arrayGet rowSizes row_)) in
  let sliceHeight_ := Math.max (Num 1) (sub nextY startY_) in
  let inner :=
    colLoop imgWidth gridColCount colSizes row_ startY_ sliceHeight_ newSlices
            gridColCount in
  (nextY, snd inner).

Definition sliceLoop (imgWidth imgHeight : Z) (gridRowCount gridColCount : nat)
    (rowFractions colFractions : list number) (rows : nat) : number * list SliceRect :=
  let rowSizes := map (fun fraction => mul fraction (ofZ imgHeight)) rowFractions in
  let colSizes := map (fun fraction => mul fraction (ofZ imgWidth)) colFractions in
  fold_left (rowBody imgWidth imgHeight gridRowCount gridColCount rowSizes colSizes)
            (seq 0 rows) (Num 0, []).

Definition performSlice (imgWidth imgHeight : Z) (gridRowCount gridColCount : nat)
    (rowFractions colFractions : list number) : list SliceRect :=
  snd (sliceLoop imgWidth imgHeight gridRowCount gridColCount
                 rowFractions colFractions gridRowCount).

(** Lines 254-257 followed by [performSlice]. *)
Definition sliceGrid (imgWidth imgHeight : Z) (rows cols : nat)
    (rowSplits colSplits : list number) : list SliceRect :=
  performSlice imgWidth imgHeight rows cols
    (buildFractions (buildStops (ofNat rows) rowSplits))
    (buildFractions (buildStops (ofNat cols) colSplits)).

(** *** Notions used by the statements *)

(** The even default of an axis with [n] cells, [n] an integer. *)
Definition evenSplits (n : nat) : list number :=
  match buildEvenSplits (ofNat n) with
  | Some splits => splits
  | None => []
  end.

(** The initial state of the component (lines 201-204), for any counts. *)
Definition evenState (rows cols : nat) : GridState :=
  {| customRows := ofNat rows; customCols := ofNat cols;
     customRowSplits := evenSplits rows; customColSplits := evenSplits cols |}.

(** The grid of the specification's examples: the even default on both
    axes. *)
Definition evenGrid (imgWidth imgHeight : Z) (rows cols : nat) : list SliceRect :=
  sliceGrid imgWidth imgHeight rows cols (evenSplits rows) (evenSplits cols).

(** The differences of consecutive stops, negative ones replaced by 0. *)
Fixpoint differences (stops : list number) : list number :=
  match stops with
  | a :: (b :: _) as rest => Math.max (Num 0) (sub b a) :: differences rest
  | _ => []
  end.

(** [rowSizes] and [colSizes] of [performSlice]. *)
Definition sizesOf (total : Z) (fractions : list number) : list number :=
  map (fun fraction => mul fraction (ofZ total)) fractions.

(** The boundary computed from the accumulator [acc] at index [i] of an
    axis, and the extent of that cell. *)
Definition boundaryAfter (total : Z) (count : nat) (sizes : list number)
    (acc : number) (i : nat) : number :=
  if (i =? count - 1)%nat then ofZ total
  else Math.round (add acc (arrayGet sizes i)).

Definition cellExtent (total : Z) (count : nat) (sizes : list number)
    (acc : number) (i : nat) : number :=
  Math.max (Num 1) (sub (boundaryAfter total count sizes acc i) (Math.round acc)).

(** The accumulator of an axis before cell [k], as a recurrence. *)
Fixpoint accBefore (total : Z) (count : nat) (sizes : list number) (k : nat) : number :=
  match k with
  | O => Num 0
  | S k' => boundaryAfter total count sizes (accBefore total count sizes k') k'
  end.

(** The slice of row [r] and column [c] in terms of the two recurrences. *)
Definition gridCell (imgWidth imgHeight : Z) (rows cols : nat)
    (rowSizes colSizes : list number) (r c : nat) : SliceRect :=
  {| row := r; col := c;
     startX := Math.round (accBefore imgWidth cols colSizes c);
     startY := Math.round (accBefore imgHeight rows rowSizes r);
     sliceWidth := cellExtent imgWidth cols colSizes (accBefore imgWidth cols colSizes c) c;
     sliceHeight := cellExtent imgHeight rows rowSizes (accBefore imgHeight rows rowSizes r) r |}.

(** A slice of row [r] whose vertical extent is given. *)
Definition colCell (imgWidth : Z) (cols : nat) (colSizes : list number)
    (r : nat) (sy sh : number) (c : nat) : SliceRect :=
  {| row := r; col := c;
     startX := Math.round (accBefore imgWidth cols colSizes c);
     startY := sy;
     sliceWidth := cellExtent imgWidth cols colSizes (accBefore imgWidth cols colSizes c) c;
     sliceHeight := sh |}.

(** The integer boundaries of an axis whose accumulator stays finite. *)
Fixpoint zEdge (total : Z) (count : nat) (sizes : list number) (k : nat) : Z :=
  match k with
  | O => 0%Z
  | S k' =>
      if (k' =? count - 1)%nat then total
      else Qfloor (toQ (add (ofZ (zEdge total count sizes k')) (arrayGet sizes k'))
                   + (1 # 2))%Q
  end.

Local Close Scope js_scope.
End Double.

Local Open Scope Q_scope.

(** *** Rounding errors *)

(** Half the spacing of the doubles in [1, 2): the relative error of one
    rounding is at most this. *)
Definition unitRoundoff : Q := 1 # 9007199254740992.

(** The constant 0.05 of [getMinGap], as a double. *)
Definition minGapDouble : Q := 3602879701896397 # 72057594037927936.



(** The rectangle of row [r] and column [c] between the integer boundaries
    [zx] of the columns and [zy] of the rows, at least one pixel wide and
    high. *)
Definition cellRect (zx zy : nat -> Z) (r c : nat) : SliceRect :=
  rect r c (zx c) (zy r) (Z.max 1 (zx (S c) - zx c)) (Z.max 1 (zy (S r) - zy r)).


Local Close Scope Q_scope.

(* ================================================================== *)
(** * Properties *)
(* ================================================================== *)

(** ** 32-bit operators against unsigned arithmetic *)

Local Open Scope Z_scope.

Lemma ToUint32_range z : 0 <= ToUint32 z < 2 ^ 32.
Proof. unfold ToUint32. apply Z.mod_pos_bound. reflexivity. Qed.

Lemma ToUint32_ToInt32 z : ToUint32 (ToInt32 z) = ToUint32 z.
Proof.
  unfold ToUint32, ToInt32.
  rewrite Zminus_mod_idemp_l. f_equal. lia.
Qed.

Lemma ToUint32_small z : 0 <= z < 2 ^ 32 -> ToUint32 z = z.
Proof. intros H. unfold ToUint32. apply Z.mod_small. exact H. Qed.

Lemma ToInt32_small z : 0 <= z < 2 ^ 31 -> ToInt32 z = z.
Proof.
  intros H. unfold ToInt32. rewrite Z.mod_small; lia.
Qed.

Lemma ToUint32_land a b :
  ToUint32 (Z.land a b) = Z.land (ToUint32 a) (ToUint32 b).
Proof.
  unfold ToUint32. rewrite <- !Z.land_ones by lia.
  apply Z.bits_inj'. intros n Hn.
  rewrite !Z.land_spec.
  destruct (Z.testbit (Z.ones 32) n); rewrite ?andb_true_r, ?andb_false_r; reflexivity.
Qed.

Lemma ToUint32_lxor a b :
  ToUint32 (Z.lxor a b) = Z.lxor (ToUint32 a) (ToUint32 b).
Proof.
  unfold ToUint32. rewrite <- !Z.land_ones by lia.
  apply Z.bits_inj'. intros n Hn.
  rewrite Z.lxor_spec, !Z.land_spec, Z.lxor_spec.
  destruct (Z.testbit (Z.ones 32) n); rewrite ?andb_true_r, ?andb_false_r; reflexivity.
Qed.

Lemma ToUint32_bitxor a b :
  ToUint32 (bitxor a b) = Z.lxor (ToUint32 a) (ToUint32 b).
Proof.
  unfold bitxor. rewrite ToUint32_ToInt32, ToUint32_lxor, !ToUint32_ToInt32.
  reflexivity.
Qed.

Lemma ushr_unsigned a n :
  0 <= n < 32 -> ushr a n = Z.shiftr (ToUint32 a) n.
Proof. intros H. unfold ushr. rewrite Z.mod_small by lia. reflexivity. Qed.

Lemma ushr_range a n : 0 <= ushr a n < 2 ^ 32.
Proof.
  unfold ushr.
  assert (Hn : 0 <= n mod 32 < 32) by (apply Z.mod_pos_bound; lia).
  pose proof (ToUint32_range a) as Ha.
  assert (Hp : 0 < 2 ^ (n mod 32)) by (apply Z.pow_pos_nonneg; lia).
  rewrite Z.shiftr_div_pow2 by lia. split.
  - apply Z.div_pos; lia.
  - apply Z.div_lt_upper_bound; [exact Hp | nia].
Qed.

Lemma land_low_byte_range z : 0 <= Z.land z 0xFF < 256.
Proof.
  change 0xFF with (Z.ones 8). rewrite Z.land_ones by lia.
  apply Z.mod_pos_bound. reflexivity.
Qed.

Lemma bitand_low_byte x : bitand x 0xff = Z.land (ToUint32 x) 0xFF.
Proof.
  unfold bitand. rewrite (ToInt32_small 255) by lia.
  pose proof (land_low_byte_range (ToInt32 x)) as R.
  rewrite ToInt32_small by lia.
  rewrite <- (ToUint32_small (Z.land (ToInt32 x) 255)) by lia.
  rewrite ToUint32_land, ToUint32_ToInt32.
  rewrite (ToUint32_small 255) by lia. reflexivity.
Qed.

(** The index computed by the byte loop is the low byte of the unsigned
    XOR. *)
Lemma crc_index_unsigned crc b :
  bitand (bitxor crc (byte.unsigned b)) 0xff
  = Z.land (Z.lxor (ToUint32 crc) (byte.unsigned b)) 0xFF.
Proof.
  pose proof (byte.unsigned_range b) as Hb.
  rewrite bitand_low_byte, ToUint32_bitxor.
  rewrite (ToUint32_small (byte.unsigned b)) by lia. reflexivity.
Qed.

(** ** The CRC table *)

Lemma makeCrcTable_spec : makeCrcTable = specCrcTable.
Proof. vm_compute. reflexivity. Qed.

Lemma makeCrcTable_length : length makeCrcTable = 256%nat.
Proof. reflexivity. Qed.

Lemma crcTableEntry_range i : 0 <= crcTableEntry i < 2 ^ 32.
Proof. unfold crcTableEntry. apply ushr_range. Qed.

Lemma makeCrcTable_nth_range n : 0 <= nth n makeCrcTable 0 < 2 ^ 32.
Proof.
  destruct (Nat.lt_ge_cases n (length makeCrcTable)) as [Hlt | Hge].
  - unfold makeCrcTable in *. rewrite length_map in Hlt.
    rewrite (nth_indep _ 0 (crcTableEntry 0)) by (rewrite length_map; exact Hlt).
    rewrite map_nth. apply crcTableEntry_range.
  - rewrite nth_overflow by exact Hge. lia.
Qed.

(** ** The byte loop *)

Lemma crcByte_unsigned crc b :
  ToUint32 (crcByte makeCrcTable crc b) = specCrcByte (ToUint32 crc) b.
Proof.
  unfold crcByte, specCrcByte.
  rewrite ToUint32_bitxor, crc_index_unsigned, <- makeCrcTable_spec.
  rewrite (ToUint32_small (nth _ makeCrcTable 0)) by apply makeCrcTable_nth_range.
  rewrite (ToUint32_small (ushr crc 8)) by apply ushr_range.
  rewrite ushr_unsigned by lia. apply Z.lxor_comm.
Qed.

Lemma crcLoop_unsigned data : forall crc,
  ToUint32 (fold_left (crcByte makeCrcTable) data crc)
  = fold_left specCrcByte data (ToUint32 crc).
Proof.
  induction data as [| b data IH]; intros crc; simpl.
  - reflexivity.
  - rewrite IH, crcByte_unsigned. reflexivity.
Qed.

Lemma getCrcTable_ok c : cacheOk c -> getCrcTable c = (makeCrcTable, Some makeCrcTable).
Proof. intros [-> | ->]; reflexivity. Qed.

Lemma crc32_cache c data :
  cacheOk c -> crc32 c data = (fst (crc32 None data), Some makeCrcTable).
Proof.
  intros H. unfold crc32. rewrite (getCrcTable_ok c H). reflexivity.
Qed.

Lemma crc32_range data : 0 <= fst (crc32 None data) < 2 ^ 32.
Proof. unfold crc32. simpl. apply ushr_range. Qed.

Lemma land_ones32 z : Z.land z 0xFFFFFFFF = ToUint32 z.
Proof. change 0xFFFFFFFF with (Z.ones 32). apply Z.land_ones. lia. Qed.

Lemma crc32_refines data : fst (crc32 None data) = specCrc32 data.
Proof.
  unfold crc32, specCrc32. cbn [getCrcTable fst].
  rewrite land_ones32.
  rewrite ushr_unsigned by lia. rewrite Z.shiftr_0_r.
  rewrite ToUint32_bitxor, ToUint32_lxor, crcLoop_unsigned.
  rewrite (ToUint32_small 0xffffffff) by lia.
  f_equal.
  assert (E : fold_left specCrcByte data 0xffffffff
              = ToUint32 (fold_left (crcByte makeCrcTable) data 0xffffffff)).
  { rewrite crcLoop_unsigned. reflexivity. }
  rewrite E. symmetry. apply ToUint32_small, ToUint32_range.
Qed.

(** ** The table against the division bit by bit *)

Lemma specCrcBit_testbit c :
  specCrcBit c
  = Z.lxor (Z.shiftr c 1) (if Z.testbit c 0 then 0xEDB88320 else 0).
Proof.
  unfold specCrcBit.
  change 1 with (Z.ones 1) at 1. rewrite Z.land_ones by lia.
  change (2 ^ 1) with 2. rewrite <- Z.bit0_mod.
  destruct (Z.testbit c 0); cbn [Z.b2z Z.eqb].
  - apply Z.lxor_comm.
  - rewrite Z.lxor_0_r. reflexivity.
Qed.

(** One division step is linear over XOR. *)
Lemma specCrcBit_lxor a b :
  specCrcBit (Z.lxor a b) = Z.lxor (specCrcBit a) (specCrcBit b).
Proof.
  rewrite !specCrcBit_testbit, Z.shiftr_lxor, Z.lxor_spec.
  apply Z.bits_inj'. intros n Hn.
  destruct (Z.testbit a 0), (Z.testbit b 0); cbn [xorb];
    rewrite !Z.lxor_spec, ?Z.bits_0;
    destruct (Z.testbit (Z.shiftr a 1) n), (Z.testbit (Z.shiftr b 1) n),
      (Z.testbit 0xEDB88320 n); reflexivity.
Qed.

Lemma iter_specCrcBit_lxor k : forall a b,
  Nat.iter k specCrcBit (Z.lxor a b)
  = Z.lxor (Nat.iter k specCrcBit a) (Nat.iter k specCrcBit b).
Proof.
  induction k as [| k IH]; intros a b; [reflexivity |].
  rewrite !Nat.iter_succ, IH, specCrcBit_lxor. reflexivity.
Qed.

(** On a value whose low [k] bits are zero, [k] steps only shift. *)
Lemma iter_specCrcBit_shiftl k : forall y,
  Nat.iter k specCrcBit (Z.shiftl y (Z.of_nat k)) = y.
Proof.
  induction k as [| k IH]; intros y.
  - cbn. apply Z.shiftl_0_r.
  - rewrite Nat.iter_succ_r.
    rewrite specCrcBit_testbit.
    rewrite Z.shiftl_spec_low by lia.
    rewrite Z.lxor_0_r.
    rewrite Z.shiftr_shiftl_l by lia.
    replace (Z.of_nat (S k) - 1) with (Z.of_nat k) by lia.
    apply IH.
Qed.

Lemma split_low_byte x :
  x = Z.lxor (Z.land x 0xFF) (Z.shiftl (Z.shiftr x 8) 8).
Proof.
  change 0xFF with (Z.ones 8).
  apply Z.bits_inj'. intros n Hn.
  rewrite Z.lxor_spec, Z.land_spec.
  destruct (Z.ltb_spec n 8).
  - rewrite Z.ones_spec_low, Z.shiftl_spec_low by lia.
    rewrite andb_true_r, xorb_false_r. reflexivity.
  - rewrite Z.ones_spec_high, Z.shiftl_spec, Z.shiftr_spec by lia.
    rewrite andb_false_r, xorb_false_l. f_equal. lia.
Qed.

Lemma specCrcTable_nth i :
  0 <= i < 256 -> nth (Z.to_nat i) specCrcTable 0 = Nat.iter 8 specCrcBit i.
Proof.
  intros H. unfold specCrcTable.
  rewrite (nth_indep _ 0 ((fun i => Nat.iter 8 specCrcBit (Z.of_nat i)) 0%nat))
    by (rewrite length_map, length_seq; lia).
  rewrite (map_nth (fun i => Nat.iter 8 specCrcBit (Z.of_nat i))).
  rewrite seq_nth by lia. cbn [Nat.add]. rewrite Z2Nat.id by lia. reflexivity.
Qed.

(** A table lookup and a shift by one byte are eight division steps. *)
Lemma specCrcByte_bitwise c b : specCrcByte c b = bitCrcByte c b.
Proof.
  unfold specCrcByte, bitCrcByte.
  set (x := Z.lxor c (byte.unsigned b)).
  assert (Hs : Z.shiftr c 8 = Z.shiftr x 8).
  { subst x. rewrite Z.shiftr_lxor.
    pose proof (byte.unsigned_range b) as Hb.
    rewrite (Z.shiftr_div_pow2 (byte.unsigned b)) by lia.
    rewrite Z.div_small by lia. rewrite Z.lxor_0_r. reflexivity. }
  rewrite Hs, specCrcTable_nth by apply land_low_byte_range.
  rewrite (split_low_byte x) at 3.
  rewrite iter_specCrcBit_lxor. f_equal.
  symmetry. apply (iter_specCrcBit_shiftl 8).
Qed.

Lemma specCrc32_bitwise data : specCrc32 data = bitCrc32 data.
Proof.
  assert (G : forall c, fold_left specCrcByte data c = fold_left bitCrcByte data c).
  { induction data as [| b data IH]; intros c; [reflexivity |].
    cbn [fold_left]. rewrite specCrcByte_bitwise. apply IH. }
  unfold specCrc32, bitCrc32. rewrite G. reflexivity.
Qed.

(** C1.  The checksum is the table-driven CRC-32 of the reflected
    polynomial 0xEDB88320: the 256-entry table is obtained from [c = i] by
    eight steps [c = (c & 1) ? (0xEDB88320 ^ (c >>> 1)) : (c >>> 1)]; the
    checksum of a buffer starts from 0xFFFFFFFF, folds each byte through
    the table and returns the result XORed with 0xFFFFFFFF as an unsigned
    32-bit integer, whether the table was cached or not; this is the
    division by the polynomial bit by bit, eight steps per byte.  The check
    value of "123456789" is 0xCBF43926 and the checksum of the empty buffer
    is 0. *)
Theorem crc32_standard :
  makeCrcTable = map (fun i => Nat.iter 8 specCrcBit (Z.of_nat i)) (seq 0 256)
  /\ length makeCrcTable = 256%nat
  /\ (forall data : list byte,
        fst (crc32 None data) = specCrc32 data
        /\ fst (crc32 None data) = bitCrc32 data
        /\ crc32 (Some makeCrcTable) data = crc32 None data
        /\ 0 <= fst (crc32 None data) < 2 ^ 32)
  /\ fst (crc32 None (asciiBytes "123456789")) = 0xCBF43926
  /\ fst (crc32 None []) = 0x00000000.
Proof.
  repeat apply conj.
  - exact makeCrcTable_spec.
  - exact makeCrcTable_length.
  - intros data. repeat apply conj.
    + apply crc32_refines.
    + rewrite crc32_refines. apply specCrc32_bitwise.
    + reflexivity.
    + apply crc32_range.
    + apply crc32_range.
  - vm_compute. reflexivity.
  - vm_compute. reflexivity.
Qed.

(** ** Header layouts *)

Local Open Scope Z_scope.

Lemma localHeaderOf_bytes now crc size nameLength :
  localHeaderOf now crc size nameLength
  = le_split 4 0x04034b50 ++ le_split 2 20 ++ le_split 2 0 ++ le_split 2 0
    ++ le_split 2 (dosTime now) ++ le_split 2 (dosDate now)
    ++ le_split 4 crc ++ le_split 4 size ++ le_split 4 size
    ++ le_split 2 nameLength ++ le_split 2 0.
Proof. reflexivity. Qed.

Lemma centralHeaderOf_bytes now crc size nameLength offset_ :
  centralHeaderOf now crc size nameLength offset_
  = le_split 4 0x02014b50 ++ le_split 2 20 ++ le_split 2 20 ++ le_split 2 0
    ++ le_split 2 0 ++ le_split 2 (dosTime now) ++ le_split 2 (dosDate now)
    ++ le_split 4 crc ++ le_split 4 size ++ le_split 4 size
    ++ le_split 2 nameLength ++ le_split 2 0 ++ le_split 2 0 ++ le_split 2 0
    ++ le_split 2 0 ++ le_split 4 0 ++ le_split 4 offset_.
Proof. reflexivity. Qed.

Lemma endRecordOf_bytes fileCount centralSize offset_ :
  endRecordOf fileCount centralSize offset_
  = le_split 4 0x06054b50 ++ le_split 2 0 ++ le_split 2 0
    ++ le_split 2 fileCount ++ le_split 2 fileCount
    ++ le_split 4 centralSize ++ le_split 4 offset_ ++ le_split 2 0.
Proof. reflexivity. Qed.

Lemma localHeaderOf_length now crc size nameLength :
  length (localHeaderOf now crc size nameLength) = 30%nat.
Proof. reflexivity. Qed.

Lemma centralHeaderOf_length now crc size nameLength offset_ :
  length (centralHeaderOf now crc size nameLength offset_) = 46%nat.
Proof. reflexivity. Qed.

Lemma endRecordOf_length fileCount centralSize offset_ :
  length (endRecordOf fileCount centralSize offset_) = 22%nat.
Proof. reflexivity. Qed.

Lemma recordedOffset_centralHeaderOf now crc size nameLength offset_ :
  recordedOffset (centralHeaderOf now crc size nameLength offset_)
  = offset_ mod 2 ^ 32.
Proof.
  unfold recordedOffset, getUint32.
  change (firstn 4 (skipn 42 (centralHeaderOf now crc size nameLength offset_)))
    with (le_split 4 offset_).
  apply le_combine_split.
Qed.

(** What a reader finds in the end-of-central-directory record. *)
Lemma endRecordOf_fields fileCount centralSize offset_ :
  let endRecord := endRecordOf fileCount centralSize offset_ in
  getUint32 endRecord 0 = 0x06054b50
  /\ getUint16 endRecord 4 = 0
  /\ getUint16 endRecord 6 = 0
  /\ getUint16 endRecord 8 = fileCount mod 2 ^ 16
  /\ getUint16 endRecord 10 = fileCount mod 2 ^ 16
  /\ getUint32 endRecord 12 = centralSize mod 2 ^ 32
  /\ getUint32 endRecord 16 = offset_ mod 2 ^ 32
  /\ getUint16 endRecord 20 = 0.
Proof.
  cbv zeta. unfold getUint32, getUint16. repeat apply conj.
  - reflexivity.
  - reflexivity.
  - reflexivity.
  - change (firstn 2 (skipn 8 (endRecordOf fileCount centralSize offset_)))
      with (le_split 2 fileCount). apply le_combine_split.
  - change (firstn 2 (skipn 10 (endRecordOf fileCount centralSize offset_)))
      with (le_split 2 fileCount). apply le_combine_split.
  - change (firstn 4 (skipn 12 (endRecordOf fileCount centralSize offset_)))
      with (le_split 4 centralSize). apply le_combine_split.
  - change (firstn 4 (skipn 16 (endRecordOf fileCount centralSize offset_)))
      with (le_split 4 offset_). apply le_combine_split.
  - reflexivity.
Qed.

(** ** The entry loop *)

Section ZipLoopFacts.
Variable encode : string -> list byte.
Variable now : DosStamp.

Lemma entryBody_ok st file :
  cacheOk (crcTable st) ->
  entryBody encode now st file
  = {| parts := parts st ++ localChunks encode now file;
       centralParts := centralParts st ++ centralChunks encode now file (offset st);
       offset := offset st + 30 + Z.of_nat (length (encode (name file)))
                 + Z.of_nat (length (data file));
       crcTable := Some makeCrcTable |}.
Proof.
  intros Hc. unfold entryBody. rewrite (crc32_cache _ _ Hc).
  rewrite localHeaderOf_length. reflexivity.
Qed.

Lemma zipLoop_from files : forall st,
  cacheOk (crcTable st) ->
  let st' := fold_left (entryBody encode now) files st in
  parts st' = parts st ++ flat_map (localChunks encode now) files
  /\ centralParts st'
     = centralParts st ++ centralChunksFrom encode now (offset st) files
  /\ offset st' = offset st + localTotal encode files
  /\ cacheOk (crcTable st').
Proof.
  induction files as [| file rest IH]; intros st Hc; cbn zeta.
  - simpl. rewrite !app_nil_r. repeat apply conj; try reflexivity; [lia | exact Hc].
  - cbn [fold_left]. rewrite (entryBody_ok st file Hc).
    match goal with |- context [fold_left _ rest ?s] => specialize (IH s) end.
    cbn zeta in IH. destruct IH as (Hp & Hcp & Ho & Hk).
    { right. reflexivity. }
    rewrite Hp, Hcp, Ho. cbn [parts centralParts offset crcTable].
    cbn [flat_map centralChunksFrom localTotal].
    rewrite <- !app_assoc. repeat apply conj; try reflexivity; [lia | exact Hk].
Qed.

Lemma zipLoop_ok c files :
  cacheOk c ->
  let st := zipLoop encode now c files in
  parts st = flat_map (localChunks encode now) files
  /\ centralParts st = centralChunksFrom encode now 0 files
  /\ offset st = localTotal encode files
  /\ cacheOk (crcTable st).
Proof.
  intros Hc. unfold zipLoop.
  pose proof (zipLoop_from files
                {| parts := []; centralParts := []; offset := 0; crcTable := c |} Hc)
    as H.
  cbn zeta in *. cbn [parts centralParts offset crcTable] in H.
  destruct H as (Hp & Hcp & Ho & Hk).
  rewrite Hp, Hcp, Ho. repeat apply conj; try reflexivity; try lia; exact Hk.
Qed.

Lemma concat_localChunks files :
  concat (flat_map (localChunks encode now) files)
  = flat_map (localEntry encode now) files.
Proof.
  induction files as [| file rest IH]; [reflexivity |].
  cbn [flat_map]. rewrite concat_app, IH. unfold localChunks, localEntry.
  cbn [concat]. rewrite app_nil_r, <- !app_assoc. reflexivity.
Qed.

Lemma concat_centralChunksFrom files : forall offset_,
  concat (centralChunksFrom encode now offset_ files)
  = centralRecords encode now files (runningOffsets encode offset_ files).
Proof.
  induction files as [| file rest IH]; intros offset_; [reflexivity |].
  cbn [centralChunksFrom runningOffsets centralRecords].
  rewrite concat_app, IH. unfold centralChunks, centralRecord.
  cbn [concat]. rewrite app_nil_r, <- !app_assoc. reflexivity.
Qed.

Lemma recordedOffsets_centralChunksFrom files : forall offset_,
  map recordedOffset (headersOf (centralChunksFrom encode now offset_ files))
  = map ToUint32 (runningOffsets encode offset_ files).
Proof.
  induction files as [| file rest IH]; intros offset_; [reflexivity |].
  cbn [centralChunksFrom runningOffsets centralChunks app headersOf map].
  rewrite IH, recordedOffset_centralHeaderOf. reflexivity.
Qed.

Lemma length_localEntry file :
  Z.of_nat (length (localEntry encode now file))
  = 30 + Z.of_nat (length (encode (name file))) + Z.of_nat (length (data file)).
Proof.
  unfold localEntry. rewrite !length_app, localHeaderOf_length. lia.
Qed.

Lemma length_local_region files :
  Z.of_nat (length (flat_map (localEntry encode now) files))
  = localTotal encode files.
Proof.
  induction files as [| file rest IH]; [reflexivity |].
  cbn [flat_map localTotal]. rewrite length_app, Nat2Z.inj_add, IH, length_localEntry.
  reflexivity.
Qed.

Lemma localTotal_nonneg files : 0 <= localTotal encode files.
Proof. induction files as [| file rest IH]; cbn [localTotal]; lia. Qed.

Lemma runningOffsets_length files : forall offset_,
  length (runningOffsets encode offset_ files) = length files.
Proof.
  induction files as [| file rest IH]; intros offset_; cbn [runningOffsets length].
  - reflexivity.
  - rewrite IH. reflexivity.
Qed.

Lemma runningOffsets_bounds files : forall offset_,
  Forall (fun o => offset_ <= o <= offset_ + localTotal encode files)
         (runningOffsets encode offset_ files).
Proof.
  induction files as [| file rest IH]; intros offset_; cbn [runningOffsets localTotal].
  - constructor.
  - pose proof (localTotal_nonneg rest) as Hn.
    constructor; [lia |].
    eapply Forall_impl; [| apply IH]. cbv beta. intros o Ho. lia.
Qed.

Lemma runningOffsets_unsigned files offset_ :
  0 <= offset_ -> offset_ + localTotal encode files < 2 ^ 32 ->
  map ToUint32 (runningOffsets encode offset_ files)
  = runningOffsets encode offset_ files.
Proof.
  intros H0 Hlt. pose proof (runningOffsets_bounds files offset_) as B.
  induction B as [| o os Ho _ IH]; [reflexivity |].
  cbn [map]. rewrite IH, ToUint32_small by lia. reflexivity.
Qed.

Lemma centralSizeOf_length chunks :
  centralSizeOf chunks = Z.of_nat (length (concat chunks)).
Proof.
  unfold centralSizeOf.
  assert (G : forall acc,
             fold_left (fun sum part => sum + Z.of_nat (length part)) chunks acc
             = acc + Z.of_nat (length (concat chunks))).
  { induction chunks as [| c cs IH]; intros acc; cbn [fold_left concat].
    - simpl. lia.
    - rewrite IH, length_app. lia. }
  rewrite G. lia.
Qed.

(** Chunk number [3 * i] of the local region is the header of entry [i];
    it begins at the running offset of that entry. *)
Lemma chunkOffset_local files : forall i rest offset_,
  (i < length files)%nat ->
  offset_ + chunkOffset (flat_map (localChunks encode now) files ++ rest) (3 * i)
  = nth i (runningOffsets encode offset_ files) 0.
Proof.
  induction files as [| file files' IH]; intros i rest offset_ Hi.
  - simpl in Hi. lia.
  - destruct i as [| i].
    + cbn [runningOffsets nth]. unfold chunkOffset. simpl. lia.
    + cbn [runningOffsets nth]. cbn [length] in Hi.
      rewrite <- (IH i rest) by lia.
      unfold chunkOffset. cbn [flat_map].
      replace (3 * S i)%nat with (S (S (S (3 * i)))) by lia.
      unfold localChunks at 1.
      cbn [app firstn concat]. rewrite !length_app, localHeaderOf_length. lia.
Qed.

Lemma nth_localChunks files : forall i rest,
  (i < length files)%nat ->
  nth (3 * i) (flat_map (localChunks encode now) files ++ rest) []
  = localHeaderOf now (fst (crc32 None (data (nth i files emptyEntry))))
      (Z.of_nat (length (data (nth i files emptyEntry))))
      (Z.of_nat (length (encode (name (nth i files emptyEntry))))).
Proof.
  induction files as [| file files' IH]; intros i rest Hi.
  - simpl in Hi. lia.
  - destruct i as [| i].
    + reflexivity.
    + cbn [length] in Hi. replace (3 * S i)%nat with (S (S (S (3 * i)))) by lia.
      cbn [flat_map]. unfold localChunks at 1. cbn [app nth]. apply IH. lia.
Qed.
End ZipLoopFacts.

(** ** The archive *)

Lemma buildZipBlob_chunks encode date c files :
  cacheOk c ->
  let now := toDosDate date in
  buildZipBlob encode date c files
  = (flat_map (localChunks encode now) files
     ++ centralChunksFrom encode now 0 files
     ++ [endRecordOf (Z.of_nat (length files))
           (Z.of_nat (length (centralRecords encode now files
                                (runningOffsets encode 0 files))))
           (localTotal encode files)],
     crcTable (zipLoop encode now c files)).
Proof.
  intros Hc now. unfold buildZipBlob. fold now.
  destruct (zipLoop_ok encode now c files Hc) as (Hp & Hcp & Ho & _).
  rewrite Hp, Hcp, Ho, centralSizeOf_length, concat_centralChunksFrom.
  reflexivity.
Qed.

Lemma blobBytes_layout encode date c files :
  cacheOk c ->
  let now := toDosDate date in
  blobBytes encode date c files
  = flat_map (localEntry encode now) files
    ++ centralRecords encode now files (runningOffsets encode 0 files)
    ++ endRecordOf (Z.of_nat (length files))
         (Z.of_nat (length (centralRecords encode now files
                              (runningOffsets encode 0 files))))
         (localTotal encode files).
Proof.
  intros Hc now. unfold blobBytes.
  rewrite (buildZipBlob_chunks encode date c files Hc). cbn [fst]. fold now.
  rewrite !concat_app, concat_localChunks, concat_centralChunksFrom.
  cbn [concat]. rewrite app_nil_r. reflexivity.
Qed.

(** The recorded offsets are the running offsets reduced to 32 bits. *)
Lemma recordedOffsets_unsigned encode date c files :
  cacheOk c ->
  map recordedOffset
      (headersOf (centralParts (zipLoop encode (toDosDate date) c files)))
  = map ToUint32 (runningOffsets encode 0 files).
Proof.
  intros Hc.
  destruct (zipLoop_ok encode (toDosDate date) c files Hc) as (_ & Hcp & _ & _).
  rewrite Hcp. apply recordedOffsets_centralChunksFrom.
Qed.

(** C3 (amended).  For every entry list whose local entries take less than
    2^32 bytes in total, the local-header offsets recorded in the central
    headers are exactly the running offsets [0], [30 + nameLength_1 +
    contentLength_1], ... of the entries, one per entry (an empty entry
    keeps its own offset and advances the next one by its header and name),
    and the local header of entry [i] is the chunk that begins at that byte
    offset of the blob.  For three entries of 10, 0 and 25 bytes the
    recorded offsets are [0], [10 + 30 + len(name1)] and that plus
    [0 + 30 + len(name2)]. *)
Theorem zip_central_offsets (encode : string -> list byte) (date : Date)
    (c : CrcCache) :
  cacheOk c ->
  (forall files : list ZipFileEntry,
     localTotal encode files < 2 ^ 32 ->
     let st := zipLoop encode (toDosDate date) c files in
     let chunks := fst (buildZipBlob encode date c files) in
     map recordedOffset (headersOf (centralParts st)) = runningOffsets encode 0 files
     /\ length (runningOffsets encode 0 files) = length files
     /\ forall i, (i < length files)%nat ->
          chunkOffset chunks (3 * i) = nth i (runningOffsets encode 0 files) 0
          /\ getUint32 (nth (3 * i) chunks []) 0 = 0x04034b50)
  /\ (forall file1 file2 file3 : ZipFileEntry,
        length (data file1) = 10%nat -> length (data file2) = 0%nat ->
        length (data file3) = 25%nat ->
        localTotal encode [file1; file2; file3] < 2 ^ 32 ->
        let len1 := Z.of_nat (length (encode (name file1))) in
        let len2 := Z.of_nat (length (encode (name file2))) in
        map recordedOffset
            (headersOf (centralParts
               (zipLoop encode (toDosDate date) c [file1; file2; file3])))
        = [0; 10 + 30 + len1; (10 + 30 + len1) + 0 + 30 + len2]).
Proof.
  intros Hc.
  assert (R : forall files, localTotal encode files < 2 ^ 32 ->
            map recordedOffset
                (headersOf (centralParts (zipLoop encode (toDosDate date) c files)))
            = runningOffsets encode 0 files).
  { intros files Hlt. rewrite (recordedOffsets_unsigned encode date c files Hc).
    apply runningOffsets_unsigned; lia. }
  split.
  - intros files Hlt st chunks. split; [apply R; exact Hlt |].
    split; [apply runningOffsets_length |].
    intros i Hi. subst chunks.
    rewrite (buildZipBlob_chunks encode date c files Hc). cbn [fst]. split.
    + match goal with
      | |- chunkOffset (_ ++ ?rest) _ = _ =>
          rewrite <- (chunkOffset_local encode (toDosDate date) files i rest 0 Hi)
      end. lia.
    + rewrite nth_localChunks by exact Hi. reflexivity.
  - intros file1 file2 file3 H1 H2 H3 Hlt len1 len2.
    rewrite (R _ Hlt). cbn [runningOffsets]. rewrite H1, H2. subst len1 len2.
    apply f_equal. apply f_equal2; [lia |]. apply f_equal2; [lia | reflexivity].
Qed.

Lemma offsets_three_files_witness :
  cacheOk None
  /\ localTotal asciiBytes threeFiles < 2 ^ 32
  /\ map recordedOffset
         (headersOf (centralParts (zipLoop asciiBytes (toDosDate sampleDate) None threeFiles)))
     = [0; 10 + 30 + 5; (10 + 30 + 5) + 0 + 30 + 5]
  /\ chunkOffset (fst (buildZipBlob asciiBytes sampleDate None threeFiles)) (3 * 2) = 80.
Proof.
  assert (Hc : cacheOk None) by (left; reflexivity).
  assert (Hlt : localTotal asciiBytes threeFiles < 2 ^ 32) by reflexivity.
  split; [exact Hc |]. split; [exact Hlt |].
  destruct (zip_central_offsets asciiBytes sampleDate None Hc) as [General Three].
  split.
  - exact (Three {| name := "1.png"; data := repeat Byte.x2a 10 |}
                  {| name := "2.png"; data := [] |}
                  {| name := "3.png"; data := repeat Byte.x2a 25 |}
                  eq_refl eq_refl eq_refl Hlt).
  - assert (H2 : (2 < length threeFiles)%nat) by (cbn; lia).
    exact (proj1 (proj2 (proj2 (General threeFiles Hlt)) 2%nat H2)).
Defined.

(** Beyond that size the recorded offsets wrap: after two entries of 2^31
    bytes the third entry begins at byte 2^32 + 70 and its header records
    70. *)
Lemma offsets_wrap_counterexample :
  nth 2 (runningOffsets asciiBytes 0 hugeFiles) 0 = 2 ^ 32 + 70
  /\ nth 2 (map recordedOffset
              (headersOf (centralParts
                 (zipLoop asciiBytes (toDosDate sampleDate) None hugeFiles)))) 0 = 70
  /\ map recordedOffset
         (headersOf (centralParts (zipLoop asciiBytes (toDosDate sampleDate) None hugeFiles)))
     <> runningOffsets asciiBytes 0 hugeFiles.
Proof.
  rewrite recordedOffsets_unsigned by (left; reflexivity).
  unfold hugeFiles. cbn [runningOffsets name data map nth].
  rewrite !repeat_length, !Z2Nat.id by lia.
  change (length (asciiBytes "1.png")) with 5%nat.
  change (length (asciiBytes "2.png")) with 5%nat.
  change (length (asciiBytes "3.png")) with 5%nat.
  split; [reflexivity |]. split; [reflexivity |].
  intros H. apply (f_equal (fun l => nth 2 l 0)) in H. cbn [nth] in H.
  vm_compute in H. discriminate H.
Qed.

(** C7 (amended).  For every entry list of fewer than 2^16 entries whose
    archive is smaller than 2^32 bytes, the blob is the local entries in
    input order, then the central records in the same order, then a
    22-byte end record carrying the signature, zero disk numbers, the
    number of entries twice, the size of the central region, the offset of
    its start (the running offset after the last local entry) and a zero
    comment length. *)
Theorem zip_blob_layout (encode : string -> list byte) (date : Date)
    (c : CrcCache) (files : list ZipFileEntry) :
  cacheOk c ->
  Z.of_nat (length files) < 2 ^ 16 ->
  Z.of_nat (length (blobBytes encode date c files)) < 2 ^ 32 ->
  let now := toDosDate date in
  let locals := flat_map (localEntry encode now) files in
  let centrals := centralRecords encode now files (runningOffsets encode 0 files) in
  exists endRecord,
    blobBytes encode date c files = locals ++ centrals ++ endRecord
    /\ length endRecord = 22%nat
    /\ getUint32 endRecord 0 = 0x06054b50
    /\ getUint16 endRecord 4 = 0
    /\ getUint16 endRecord 6 = 0
    /\ getUint16 endRecord 8 = Z.of_nat (length files)
    /\ getUint16 endRecord 10 = Z.of_nat (length files)
    /\ getUint32 endRecord 12 = Z.of_nat (length centrals)
    /\ getUint32 endRecord 16 = Z.of_nat (length locals)
    /\ offset (zipLoop encode now c files) = Z.of_nat (length locals)
    /\ getUint16 endRecord 20 = 0.
Proof.
  intros Hc Hn Hsize now locals centrals.
  pose proof (blobBytes_layout encode date c files Hc) as L. cbv zeta in L.
  fold now in L. fold locals in L. fold centrals in L.
  rewrite L in Hsize. rewrite !length_app, endRecordOf_length in Hsize.
  pose proof (length_local_region encode now files) as Hl. fold locals in Hl.
  destruct (zipLoop_ok encode now c files Hc) as (_ & _ & Ho & _).
  eexists. split; [exact L |].
  destruct (endRecordOf_fields (Z.of_nat (length files)) (Z.of_nat (length centrals))
              (localTotal encode files))
    as (F0 & F4 & F6 & F8 & F10 & F12 & F16 & F20).
  rewrite F0, F4, F6, F8, F10, F12, F16, F20, Ho, <- Hl.
  rewrite !Z.mod_small by lia.
  repeat apply conj; reflexivity.
Qed.

Lemma layout_three_files_witness :
  cacheOk None
  /\ Z.of_nat (length threeFiles) < 2 ^ 16
  /\ Z.of_nat (length (blobBytes asciiBytes sampleDate None threeFiles)) < 2 ^ 32
  /\ exists endRecord,
       blobBytes asciiBytes sampleDate None threeFiles
       = flat_map (localEntry asciiBytes (toDosDate sampleDate)) threeFiles
         ++ centralRecords asciiBytes (toDosDate sampleDate) threeFiles
              (runningOffsets asciiBytes 0 threeFiles)
         ++ endRecord
       /\ getUint16 endRecord 8 = 3.
Proof.
  assert (Hc : cacheOk None) by (left; reflexivity).
  assert (Hn : Z.of_nat (length threeFiles) < 2 ^ 16) by reflexivity.
  assert (Hs : Z.of_nat (length (blobBytes asciiBytes sampleDate None threeFiles)) < 2 ^ 32)
    by (vm_compute; reflexivity).
  repeat apply conj; [exact Hc | exact Hn | exact Hs |].
  destruct (zip_blob_layout asciiBytes sampleDate None threeFiles Hc Hn Hs)
    as (endRecord & L & _ & _ & _ & _ & F8 & _).
  exists endRecord. split; [exact L | exact F8].
Defined.

(** From 65536 entries on the count is lost: the 16-bit count fields of
    the end record hold 0. *)
Lemma entry_count_wraps_counterexample :
  let chunks := fst (buildZipBlob asciiBytes sampleDate None manyFiles) in
  getUint16 (last chunks []) 8 <> Z.of_nat (length manyFiles).
Proof.
  cbv zeta. rewrite buildZipBlob_chunks by (left; reflexivity). cbn [fst].
  rewrite app_assoc, last_last.
  match goal with
  | |- getUint16 (endRecordOf ?n ?s ?o) 8 <> _ =>
      destruct (endRecordOf_fields n s o) as (_ & _ & _ & F8 & _)
  end.
  rewrite F8. unfold manyFiles. rewrite repeat_length, Z2Nat.id by lia.
  vm_compute. discriminate.
Qed.

(** ** What the archive depends on *)

(** C9 (amended).  The archive is a function of the entry list and of the
    DOS time stamp of the clock value read at the call: two invocations on
    the same list whose clock readings have the same stamp produce the same
    chunks, hence byte-identical blobs, whatever the table cache held at
    either call (nothing yet, or the table), and each leaves the cache
    holding the table. *)
Theorem zip_blob_determined (encode : string -> list byte) (date1 date2 : Date)
    (c1 c2 : CrcCache) (files : list ZipFileEntry) :
  cacheOk c1 -> cacheOk c2 ->
  toDosDate date1 = toDosDate date2 ->
  fst (buildZipBlob encode date1 c1 files) = fst (buildZipBlob encode date2 c2 files)
  /\ blobBytes encode date1 c1 files = blobBytes encode date2 c2 files
  /\ cacheOk (snd (buildZipBlob encode date1 c1 files)).
Proof.
  intros H1 H2 Hd.
  assert (E : fst (buildZipBlob encode date1 c1 files)
              = fst (buildZipBlob encode date2 c2 files)).
  { rewrite (buildZipBlob_chunks encode date1 c1 files H1).
    rewrite (buildZipBlob_chunks encode date2 c2 files H2).
    cbn [fst]. rewrite Hd. reflexivity. }
  repeat apply conj.
  - exact E.
  - unfold blobBytes. rewrite E. reflexivity.
  - unfold buildZipBlob. cbn [snd].
    apply (zipLoop_ok encode (toDosDate date1) c1 files H1).
Qed.

Lemma same_stamp_witness :
  cacheOk None /\ cacheOk (Some makeCrcTable)
  /\ toDosDate sampleDate = toDosDate sampleDate
  /\ blobBytes asciiBytes sampleDate None threeFiles
     = blobBytes asciiBytes sampleDate (Some makeCrcTable) threeFiles.
Proof.
  assert (H1 : cacheOk None) by (left; reflexivity).
  assert (H2 : cacheOk (Some makeCrcTable)) by (right; reflexivity).
  repeat apply conj; [exact H1 | exact H2 | reflexivity |].
  exact (proj1 (proj2 (zip_blob_determined asciiBytes sampleDate sampleDate
                         None (Some makeCrcTable) threeFiles H1 H2 eq_refl))).
Defined.

(** Across clock readings the blob changes: the same entry list archived
    at two different times gives two different blobs, because every header
    carries the time of the call. *)
Lemma later_clock_counterexample :
  blobBytes asciiBytes sampleDate None threeFiles
  <> blobBytes asciiBytes laterDate None threeFiles.
Proof.
  intros H. apply (f_equal (fun bytes => nth 10 bytes Byte.x00)) in H.
  vm_compute in H. discriminate H.
Qed.

(* ================================================================== *)
(** ** Numbers, clamping, stops and fractions *)
(* ================================================================== *)

Local Open Scope Q_scope.

Lemma Qle_bool_false x y : Qle_bool x y = false <-> y < x.
Proof.
  split; intros H.
  - apply Qnot_le_lt. intros Hle. apply Qle_bool_iff in Hle. congruence.
  - destruct (Qle_bool x y) eqn:E; [| reflexivity].
    apply Qle_bool_iff in E. lra.
Qed.

Lemma clampValue_within value lo hi :
  isNaN value = false -> lo <= hi ->
  within lo hi (clampValue value (Num lo) (Num hi)).
Proof.
  intros Hn Hle. destruct value as [v | | |]; try discriminate;
    unfold clampValue, Math.min, Math.max, num_le; qcases;
    cbn [within]; qcases; cbn [within]; lra.
Qed.

(** A value strictly inside the bounds is returned as it is. *)
Lemma clampValue_inside v lo hi :
  lo < v -> v <= hi -> clampValue (Num v) (Num lo) (Num hi) = Num v.
Proof.
  intros H1 H2. unfold clampValue, Math.min, Math.max, num_le.
  destruct (Qle_bool v lo) eqn:E1; qbool; [lra |].
  destruct (Qle_bool v hi) eqn:E2; qbool; [reflexivity | lra].
Qed.

Lemma max_zero_not_negative a : ~ negative (Math.max (Num 0) a).
Proof.
  unfold negative. destruct a as [q | | |]; cbn; try discriminate.
  destruct (Qle_bool 0 q) eqn:E; cbn.
  - rewrite E. discriminate.
  - discriminate.
Qed.

Lemma max_zero_nonNegative a :
  isNaN a = false -> nonNegative (Math.max (Num 0) a).
Proof.
  intros Hn. unfold nonNegative.
  destruct a as [q | | |]; try discriminate; try reflexivity.
  cbn. destruct (Qle_bool 0 q) eqn:E; cbn; [exact E | reflexivity].
Qed.

(** [buildFractions] pairs every stop with its predecessor. *)
Lemma buildFractions_differences stops : buildFractions stops = differences stops.
Proof.
  unfold buildFractions.
  assert (G : forall rest pre a,
             mapi (fun stop index =>
                     Math.max (Num 0) (stop - arrayGet (pre ++ a :: rest) index)%js)
                  (length pre) rest
             = differences (a :: rest)).
  { induction rest as [| b rest IH]; intros pre a; [reflexivity |].
    cbn [mapi differences]. f_equal.
    - unfold arrayGet. rewrite nth_middle. reflexivity.
    - specialize (IH (pre ++ [a]) b).
      rewrite <- app_assoc, length_app in IH. cbn [app length] in IH.
      rewrite Nat.add_1_r in IH. exact IH. }
  destruct stops as [| a rest]; [reflexivity |].
  exact (G rest [] a).
Qed.

Lemma differences_length stops :
  length (differences stops) = (length stops - 1)%nat.
Proof.
  induction stops as [| a [| b rest] IH]; [reflexivity | reflexivity |].
  cbn [differences length] in *. rewrite IH. lia.
Qed.

Lemma differences_never_negative stops :
  Forall (fun f => ~ negative f) (differences stops).
Proof.
  induction stops as [| a [| b rest] IH]; cbn [differences]; constructor.
  - apply max_zero_not_negative.
  - exact IH.
Qed.

Lemma finite_sub a b :
  Number.isFinite a = true -> Number.isFinite b = true -> isNaN (b - a)%js = false.
Proof. destruct a, b; try discriminate; reflexivity. Qed.

(** The fractions of finite stops are finite and not negative. *)
Lemma differences_finite stops :
  Forall (fun s => Number.isFinite s = true) stops ->
  Forall nonNegative (differences stops).
Proof.
  induction stops as [| a [| b rest] IH]; intros Hf; cbn [differences]; constructor.
  - inversion Hf as [| ? ? Ha Hr]; subst. inversion Hr as [| ? ? Hb _]; subst.
    apply max_zero_nonNegative, finite_sub; assumption.
  - apply IH. inversion Hf; assumption.
Qed.

Lemma Forall_firstn {A : Type} (P : A -> Prop) (l : list A) : forall k,
  Forall P l -> Forall P (firstn k l).
Proof.
  induction l as [| x l IH]; intros [| k] H; cbn [firstn]; try constructor.
  - inversion H; assumption.
  - apply IH. inversion H; assumption.
Qed.

Lemma Qfloor_inject_pred z : Qfloor (inject_Z z - 1) = (z - 1)%Z.
Proof.
  rewrite <- (Qfloor_Z (z - 1)). apply Qfloor_comp.
  unfold Zminus. rewrite inject_Z_plus, inject_Z_opp. reflexivity.
Qed.

Lemma sliceTo_firstn {A : Type} (end_ : number) (a : list A) :
  exists k, sliceTo end_ a = firstn k a.
Proof.
  unfold sliceTo. destruct (ToIntegerOrInfinity end_) as [k | |].
  - destruct (k <? 0)%Z; eexists; reflexivity.
  - exists (length a). rewrite firstn_all. reflexivity.
  - exists 0%nat. reflexivity.
Qed.

Lemma buildStops_shape count splits :
  exists k, buildStops count splits = Num 0 :: map clamp01 (firstn k splits) ++ [Num 1].
Proof.
  unfold buildStops. destruct (count <=? Num 1)%js.
  - exists 0%nat. reflexivity.
  - destruct (sliceTo_firstn (count - Num 1)%js splits) as [k Hk].
    exists k. rewrite Hk. reflexivity.
Qed.

Lemma buildStops_ofNat n splits :
  buildStops (ofNat n) splits = Num 0 :: map clamp01 (firstn (n - 1) splits) ++ [Num 1].
Proof.
  unfold buildStops, ofNat, ofZ, num_le.
  destruct (Qle_bool (inject_Z (Z.of_nat n)) 1) eqn:E.
  - apply Qle_bool_iff in E. change 1 with (inject_Z 1) in E.
    rewrite <- Zle_Qle in E.
    replace (n - 1)%nat with 0%nat by lia. reflexivity.
  - apply Qle_bool_false in E. change 1 with (inject_Z 1) in E.
    rewrite <- Zlt_Qlt in E.
    unfold sliceTo, num_sub, ToIntegerOrInfinity, truncate.
    assert (E0 : Qle_bool 0 (inject_Z (Z.of_nat n) - 1) = true).
    { apply Qle_bool_iff. unfold Qle. simpl. lia. }
    rewrite E0, Qfloor_inject_pred.
    destruct (Z.of_nat n - 1 <? 0)%Z eqn:E1; [apply Z.ltb_lt in E1; lia |].
    replace (Z.to_nat (Z.of_nat n - 1)) with (n - 1)%nat by lia. reflexivity.
Qed.

Lemma within_isFinite lo hi a : within lo hi a -> Number.isFinite a = true.
Proof. destruct a; cbn; intros H; (reflexivity || contradiction). Qed.

Lemma buildStops_within count splits :
  Forall (fun v => isNaN v = false) splits ->
  Forall (within 0 1) (buildStops count splits).
Proof.
  intros Hn. destruct (buildStops_shape count splits) as [k ->].
  constructor; [cbn; lra |].
  apply Forall_app. split.
  - apply Forall_map. eapply Forall_impl; [| apply (Forall_firstn (fun v => isNaN v = false))].
    + intros v Hv. apply clampValue_within; [exact Hv | lra].
    + exact Hn.
  - constructor; [cbn; lra | constructor].
Qed.

(** C10 (amended).  For every count and every splits array (any length,
    any order), [buildStops] returns 0, then the clamped values of a prefix
    of the splits (the first [count - 1] of them for an integer count), then
    1; every split that is not NaN is clamped into [0, 1], while a NaN
    split stays NaN.  [buildFractions] returns one value per pair of
    consecutive stops and never a negative one; on stops without NaN and
    infinities, in particular on the stops built from splits without NaN,
    every fraction satisfies [0 <= fraction]. *)
Theorem stops_and_fractions_total :
  (forall count splits, exists k,
      buildStops count splits = Num 0 :: map clamp01 (firstn k splits) ++ [Num 1])
  /\ (forall (n : nat) splits,
        buildStops (ofNat n) splits
        = Num 0 :: map clamp01 (firstn (n - 1) splits) ++ [Num 1])
  /\ (forall value,
        (isNaN value = false -> within 0 1 (clamp01 value))
        /\ (isNaN value = true -> clamp01 value = NaN))
  /\ (forall stops,
        length (buildFractions stops) = (length stops - 1)%nat
        /\ Forall (fun f => ~ negative f) (buildFractions stops))
  /\ (forall stops,
        Forall (fun s => Number.isFinite s = true) stops ->
        Forall nonNegative (buildFractions stops))
  /\ (forall count splits,
        Forall (fun v => isNaN v = false) splits ->
        Forall (within 0 1) (buildStops count splits)
        /\ Forall nonNegative (buildFractions (buildStops count splits))).
Proof.
  split; [exact buildStops_shape |].
  split; [exact buildStops_ofNat |].
  split.
  { intros value. split.
    - intros Hn. apply clampValue_within; [exact Hn | lra].
    - destruct value; try discriminate. intros _. reflexivity. }
  split.
  { intros stops. rewrite buildFractions_differences. split.
    - apply differences_length.
    - apply differences_never_negative. }
  split.
  { intros stops Hf. rewrite buildFractions_differences.
    apply differences_finite. exact Hf. }
  intros count splits Hn. split.
  - apply buildStops_within. exact Hn.
  - rewrite buildFractions_differences. apply differences_finite.
    eapply Forall_impl; [| apply buildStops_within; exact Hn].
    intros a Ha. eapply within_isFinite. exact Ha.
Qed.

Lemma unsorted_splits_witness :
  Forall (fun v => isNaN v = false) [Num 2; NegInfinity; Num (1 # 2)]
  /\ Forall (within 0 1) (buildStops (ofNat 4) [Num 2; NegInfinity; Num (1 # 2)])
  /\ Forall nonNegative
       (buildFractions (buildStops (ofNat 4) [Num 2; NegInfinity; Num (1 # 2)])).
Proof.
  assert (H : Forall (fun v => isNaN v = false) [Num 2; NegInfinity; Num (1 # 2)]).
  { repeat constructor. }
  split; [exact H |].
  exact (proj2 (proj2 (proj2 (proj2 (proj2 stops_and_fractions_total))))
           (ofNat 4) [Num 2; NegInfinity; Num (1 # 2)] H).
Defined.

(** A NaN split is not clamped into [0, 1], and the fractions around it
    are NaN, not non-negative values. *)
Lemma NaN_split_counterexample :
  buildStops (ofNat 2) [NaN] = [Num 0; NaN; Num 1]
  /\ ~ Forall (within 0 1) (buildStops (ofNat 2) [NaN])
  /\ buildFractions (buildStops (ofNat 2) [NaN]) = [NaN; NaN]
  /\ ~ Forall nonNegative (buildFractions (buildStops (ofNat 2) [NaN])).
Proof.
  repeat apply conj.
  - reflexivity.
  - intros H. inversion H as [| ? ? _ H1]; subst. inversion H1 as [| ? ? H2 _]; subst.
    exact H2.
  - reflexivity.
  - intros H. inversion H as [| ? ? H1 _]; subst. discriminate H1.
Qed.

(* ================================================================== *)
(** ** Breakpoints that keep a gap *)
(* ================================================================== *)

Lemma count_cases (n : nat) :
  (1 <= n <= 8)%nat ->
  (n = 1 \/ n = 2 \/ n = 3 \/ n = 4 \/ n = 5 \/ n = 6 \/ n = 7 \/ n = 8)%nat.
Proof. lia. Qed.

Lemma spaced_room gap lo splits : 0 <= gap -> spaced gap lo splits -> lo + gap <= 1.
Proof.
  intros Hg. revert lo.
  induction splits as [| [b | | |] rest IH]; intros lo H; cbn [spaced] in H;
    try contradiction.
  - exact H.
  - destruct H as [H1 H2]. specialize (IH b H2). lra.
Qed.

Lemma spaced_increasing gap lo splits :
  0 < gap -> spaced gap lo splits -> increasingWithin lo splits.
Proof.
  intros Hg. revert lo.
  induction splits as [| [b | | |] rest IH]; intros lo H; cbn [spaced] in H;
    cbn [increasingWithin]; try contradiction; [exact I |].
  destruct H as [H1 H2].
  pose proof (spaced_room gap b rest (Qlt_le_weak _ _ Hg) H2).
  repeat split; [lra | lra | apply IH; exact H2].
Qed.


(* ================================================================== *)
(** ** Setting the grid size *)
(* ================================================================== *)








(* ================================================================== *)
(** ** The slicing loop *)
(* ================================================================== *)

Local Open Scope nat_scope.






Lemma table_length {A : Type} (f : nat -> nat -> A) cols rows :
  length (flat_map (fun r => map (f r) (seq 0 cols)) (seq 0 rows)) = rows * cols.
Proof.
  induction rows as [| rows IH]; [reflexivity |].
  rewrite seq_S, flat_map_app, length_app, IH. cbn [flat_map Nat.add].
  rewrite app_nil_r, length_map, length_seq. lia.
Qed.

(** Element [r * cols + c] of a row-major table. *)
Lemma nth_error_table {A : Type} (f : nat -> nat -> A) cols : forall rows r c,
  r < rows -> c < cols ->
  nth_error (flat_map (fun r => map (f r) (seq 0 cols)) (seq 0 rows)) (r * cols + c)
  = Some (f r c).
Proof.
  induction rows as [| rows IH]; intros r c Hr Hc; [lia |].
  rewrite seq_S, flat_map_app. cbn [flat_map Nat.add]. rewrite app_nil_r.
  pose proof (table_length f cols rows) as L.
  destruct (Nat.eq_dec r rows) as [-> | Hne].
  - rewrite nth_error_app2 by (rewrite L; lia).
    rewrite L. replace (rows * cols + c - rows * cols) with c by lia.
    rewrite nth_error_map, nth_error_nth' with (d := 0) by (rewrite length_seq; exact Hc).
    rewrite seq_nth by exact Hc. reflexivity.
  - rewrite nth_error_app1 by (rewrite L; nia).
    apply IH; [lia | exact Hc].
Qed.






(* ================================================================== *)
(** ** Rounding to binary64 *)
(* ================================================================== *)

Local Open Scope Q_scope.

Lemma roundHalfEven_near y : Qabs (inject_Z (roundHalfEven y) - y) <= 1 # 2.
Proof.
  unfold roundHalfEven.
  pose proof (Qfloor_le y) as L. pose proof (Qlt_floor y) as U.
  rewrite inject_Z_plus in U. change (inject_Z 1) with 1 in U.
  apply Qabs_Qle_condition.
  destruct (Qcompare (y - inject_Z (Qfloor y)) (1 # 2)) eqn:E.
  - apply (proj2 (Qeq_alt _ _)) in E. destruct (Z.even (Qfloor y));
      rewrite ?inject_Z_plus; change (inject_Z 1) with 1; lra.
  - apply (proj2 (Qlt_alt _ _)) in E. lra.
  - apply (proj2 (Qgt_alt _ _)) in E. rewrite inject_Z_plus. change (inject_Z 1) with 1. lra.
Qed.

Lemma roundHalfEven_comp x y : x == y -> roundHalfEven x = roundHalfEven y.
Proof.
  intros H. unfold roundHalfEven. rewrite (Qfloor_comp x y H).
  assert (E : Qcompare (x - inject_Z (Qfloor y)) (1 # 2)
              = Qcompare (y - inject_Z (Qfloor y)) (1 # 2)).
  { apply Qcompare_comp; [rewrite H; reflexivity | reflexivity]. }
  rewrite E. reflexivity.
Qed.

Lemma roundHalfEven_Z k : roundHalfEven (inject_Z k) = k.
Proof.
  unfold roundHalfEven. rewrite Qfloor_Z.
  assert (E : Qcompare (inject_Z k - inject_Z k) (1 # 2) = Lt).
  { apply (proj1 (Qlt_alt _ _)). generalize (inject_Z k). intros q. lra. }
  rewrite E. reflexivity.
Qed.

Lemma pow2_pos k : 0 < 2 ^ k.
Proof. apply Qpower_0_lt. lra. Qed.

Lemma pow2_plus a b : 2 ^ (a + b) == 2 ^ a * 2 ^ b.
Proof. apply Qpower_plus. lra. Qed.

Lemma pow2_succ a : 2 ^ (a + 1) == 2 * 2 ^ a.
Proof. rewrite pow2_plus. change (2 ^ 1) with 2. ring. Qed.

Lemma pow2_Z k : (0 <= k)%Z -> 2 ^ k == inject_Z (2 ^ k).
Proof. intros H. rewrite Zpower_Qpower by exact H. reflexivity. Qed.

(** [2 ^ e <= |x| < 2 ^ (e + 1)] *)
Lemma exponentOf_spec x :
  ~ x == 0 -> 2 ^ exponentOf x <= Qabs x /\ Qabs x < 2 ^ (exponentOf x + 1).
Proof.
  intros Hx. unfold exponentOf.
  destruct x as [n d]. cbn [Qnum Qden].
  set (N := Z.abs n). set (c := (Z.log2 N - Z.log2 (Z.pos d))%Z).
  assert (HN : (0 < N)%Z).
  { subst N. assert (n <> 0)%Z; [| lia]. intros ->. apply Hx. reflexivity. }
  assert (Ea : Qabs (n # d) == inject_Z N / inject_Z (Z.pos d)).
  { unfold Qabs. fold N. apply Qmake_Qdiv. }
  pose proof (Z.log2_spec N HN) as [LN UN].
  pose proof (Z.log2_spec (Z.pos d) ltac:(lia)) as [Ld Ud].
  pose proof (Z.log2_nonneg N) as PN. pose proof (Z.log2_nonneg (Z.pos d)) as Pd.
  set (ln := Z.log2 N) in *. set (ld := Z.log2 (Z.pos d)) in *.
  assert (Dpos : 0 < inject_Z (Z.pos d)).
  { change 0 with (inject_Z 0). rewrite <- Zlt_Qlt. lia. }
  (* bounds in Q *)
  assert (QLN : 2 ^ ln <= inject_Z N).
  { rewrite pow2_Z by lia. rewrite <- Zle_Qle. exact LN. }
  assert (QUN : inject_Z N < 2 ^ (ln + 1)).
  { rewrite pow2_Z by lia. rewrite <- Zlt_Qlt. unfold Z.succ in UN. exact UN. }
  assert (QLd : 2 ^ ld <= inject_Z (Z.pos d)).
  { rewrite pow2_Z by lia. rewrite <- Zle_Qle. exact Ld. }
  assert (QUd : inject_Z (Z.pos d) < 2 ^ (ld + 1)).
  { rewrite pow2_Z by lia. rewrite <- Zlt_Qlt. unfold Z.succ in Ud. exact Ud. }
  (* a * d = N *)
  set (a := Qabs (n # d)) in *.
  assert (Ma : a * inject_Z (Z.pos d) == inject_Z N).
  { rewrite Ea. field. lra. }
  assert (Hlow : 2 ^ (c - 1) < a).
  { (* 2^(c-1) * d < 2^(c-1) * 2^(ld+1) = 2^ln <= N = a * d *)
    apply Qnot_le_lt. intros Hc.
    assert (E1 : 2 ^ (c - 1) * 2 ^ (ld + 1) == 2 ^ ln).
    { rewrite <- pow2_plus. replace (c - 1 + (ld + 1))%Z with ln by (subst c; lia).
      reflexivity. }
    pose proof (pow2_pos (c - 1)) as P1.
    assert (a * inject_Z (Z.pos d) <= 2 ^ (c - 1) * inject_Z (Z.pos d)).
    { apply Qmult_le_compat_r; [exact Hc | lra]. }
    assert (2 ^ (c - 1) * inject_Z (Z.pos d) < 2 ^ (c - 1) * 2 ^ (ld + 1)).
    { apply Qmult_lt_l; assumption. }
    lra. }
  assert (Hup : a < 2 ^ (c + 1)).
  { apply Qnot_le_lt. intros Hc.
    assert (E1 : 2 ^ (c + 1) * 2 ^ ld == 2 ^ (ln + 1)).
    { rewrite <- pow2_plus. replace (c + 1 + ld)%Z with (ln + 1)%Z by (subst c; lia).
      reflexivity. }
    pose proof (pow2_pos (c + 1)) as P1.
    assert (2 ^ (c + 1) * inject_Z (Z.pos d) <= a * inject_Z (Z.pos d)).
    { apply Qmult_le_compat_r; [exact Hc | lra]. }
    assert (2 ^ (c + 1) * 2 ^ ld <= 2 ^ (c + 1) * inject_Z (Z.pos d)).
    { apply Qmult_le_l; assumption. }
    lra. }
  destruct (Qle_bool (2 ^ c) a) eqn:E.
  - apply Qle_bool_iff in E. split; assumption.
  - assert (a < 2 ^ c).
    { apply Qnot_le_lt. intros Hle. apply Qle_bool_iff in Hle. congruence. }
    replace (c - 1 + 1)%Z with c by lia. split; [lra | assumption].
Qed.

Lemma unitRoundoff_pow : 2 ^ (-53) == unitRoundoff.
Proof. reflexivity. Qed.

Lemma Qabs_scale (m y p : Q) :
  0 < p -> Qabs (m * p - y * p) == Qabs (m - y) * p.
Proof.
  intros Hp. setoid_replace (m * p - y * p) with ((m - y) * p) by ring.
  rewrite Qabs_Qmult, (Qabs_pos p) by lra. reflexivity.
Qed.

Lemma roundAt_near q x : Qabs (roundAt q x - x) <= (1 # 2) * 2 ^ q.
Proof.
  unfold roundAt. rewrite Qred_correct.
  pose proof (pow2_pos q) as P.
  setoid_replace x with (x / 2 ^ q * 2 ^ q) at 2 by (field; lra).
  rewrite Qabs_scale by exact P.
  apply Qmult_le_compat_r; [apply roundHalfEven_near | lra].
Qed.

Lemma round53_accurate x :
  2 ^ (-1022) <= Qabs x -> Qabs (round53 x - x) <= Qabs x * unitRoundoff.
Proof.
  intros Hn. unfold round53.
  assert (Hx : ~ x == 0).
  { intros E. rewrite E in Hn. pose proof (pow2_pos (-1022)). cbn [Qabs Z.abs] in Hn. lra. }
  destruct (Qeq_bool x 0) eqn:E0; [apply Qeq_bool_iff in E0; contradiction |].
  destruct (exponentOf_spec x Hx) as [L U].
  set (e := exponentOf x) in *.
  assert (He : (-1022 <= e)%Z).
  { assert (H : (-1022 < e + 1)%Z); [| lia].
    apply (Qpower_lt_compat_l_inv 2); lra. }
  rewrite Z.max_l by lia.
  eapply Qle_trans; [apply roundAt_near |].
  assert (E : 2 ^ (e - 52) == 2 ^ e * 2 ^ (- 52)).
  { replace (e - 52)%Z with (e + - 52)%Z by lia. apply pow2_plus. }
  rewrite E. pose proof (pow2_pos e) as Pe.
  change (2 ^ (-52)) with (1 # 4503599627370496). unfold unitRoundoff.
  lra.
Qed.

Lemma binary64_accurate x :
  2 ^ (-1022) <= Qabs x -> Qabs (binary64 x - x) <= Qabs x * unitRoundoff.
Proof.
  intros H. unfold binary64.
  pose proof (Qred_correct x) as E.
  assert (A : Qabs (Qred x) == Qabs x) by (rewrite E; reflexivity).
  rewrite <- A in H. pose proof (round53_accurate (Qred x) H) as R.
  rewrite A in R. revert R. generalize (round53 (Qred x)). intros r R.
  setoid_replace (r - x) with (r - Qred x) by (rewrite E; reflexivity).
  exact R.
Qed.

Lemma binary64_comp x y : x == y -> binary64 x = binary64 y.
Proof. intros H. unfold binary64. rewrite (Qred_complete x y H). reflexivity. Qed.

Lemma Qred_inject_Z z : Qred (inject_Z z) = inject_Z z.
Proof.
  unfold Qred, inject_Z.
  pose proof (Z.ggcd_gcd z 1) as G. pose proof (Z.ggcd_correct_divisors z 1) as D.
  destruct (Z.ggcd z 1) as [g [aa bb]]. cbn [fst snd] in *.
  rewrite Z.gcd_1_r in G. subst g. destruct D as [-> D].
  rewrite !Z.mul_1_l in *. subst bb. reflexivity.
Qed.

Lemma binary64_integer z :
  (Z.abs z < 2 ^ 53)%Z -> binary64 (inject_Z z) = inject_Z z.
Proof.
  intros Hz. unfold binary64. rewrite Qred_inject_Z. unfold round53.
  destruct (Qeq_bool (inject_Z z) 0) eqn:E0.
  - apply Qeq_bool_iff in E0. unfold Qeq in E0. cbn in E0.
    assert (z = 0)%Z by lia. subst z. reflexivity.
  - apply Qeq_bool_neq in E0.
    destruct (exponentOf_spec (inject_Z z) E0) as [L U].
    set (e := exponentOf (inject_Z z)) in *.
    assert (A : Qabs (inject_Z z) = inject_Z (Z.abs z)) by reflexivity.
    rewrite A in L, U.
    assert (He : (e < 53)%Z).
    { apply (Qpower_lt_compat_l_inv 2); [| lra].
      eapply Qle_lt_trans; [exact L |].
      rewrite (pow2_Z 53) by lia. rewrite <- Zlt_Qlt. exact Hz. }
    set (q := Z.max (e - 52) (-1074)).
    assert (Hq : (q <= 0)%Z) by (subst q; lia).
    unfold roundAt.
    assert (Ey : inject_Z z / 2 ^ q == inject_Z (z * 2 ^ (- q))).
    { rewrite inject_Z_mult, <- (pow2_Z (- q)) by lia.
      rewrite Qpower_opp. field. pose proof (pow2_pos q). lra. }
    rewrite (roundHalfEven_comp _ _ Ey), roundHalfEven_Z.
    transitivity (Qred (inject_Z z)); [| apply Qred_inject_Z].
    apply Qred_complete.
    rewrite inject_Z_mult, <- (pow2_Z (- q)) by lia.
    rewrite Qpower_opp. field. pose proof (pow2_pos q). lra.
Qed.

Lemma Qle_bool_comp_l x y b : x == y -> Qle_bool b x = Qle_bool b y.
Proof.
  intros H. apply eq_true_iff_eq. rewrite !Qle_bool_iff, H. reflexivity.
Qed.

Lemma toDouble_comp x y : x == y -> toDouble x = toDouble y.
Proof.
  intros H. unfold toDouble.
  rewrite (binary64_comp x y H), (Qle_bool_comp_l x y 0 H). reflexivity.
Qed.

(** Integers below [2 ^ 53] are doubles. *)
Lemma toDouble_integer z : (Z.abs z < 2 ^ 53)%Z -> toDouble (inject_Z z) = ofZ z.
Proof.
  intros Hz. unfold toDouble. rewrite (binary64_integer z Hz).
  assert (E : Qle_bool (Qabs (inject_Z z)) MAX_VALUE = true).
  { apply Qle_bool_iff. change (Qabs (inject_Z z)) with (inject_Z (Z.abs z)).
    unfold MAX_VALUE. rewrite <- Zle_Qle.
    assert ((2 ^ 53 <= (2 ^ 53 - 1) * 2 ^ 971)%Z) by (vm_compute; discriminate).
    lia. }
  rewrite E. reflexivity.
Qed.

(** One rounding of a positive result of ordinary size: the value returned
    is finite and within the relative error [unitRoundoff]. *)
Lemma toDouble_accurate x :
  1 # 1000 <= x -> x <= 1099511627776 ->
  exists r, toDouble x = Num r
            /\ x * (1 - unitRoundoff) <= r /\ r <= x * (1 + unitRoundoff).
Proof.
  intros Hl Hu. unfold toDouble.
  assert (Hx : Qabs x == x) by (apply Qabs_pos; lra).
  assert (Hn : 2 ^ (-1022) <= Qabs x).
  { rewrite Hx. apply Qle_trans with (1 # 1000); [| exact Hl].
    vm_compute. discriminate. }
  pose proof (binary64_accurate x Hn) as A. rewrite Hx in A.
  apply Qabs_Qle_condition in A. destruct A as [A1 A2].
  exists (binary64 x).
  assert (U : 0 < unitRoundoff) by reflexivity.
  assert (U1 : unitRoundoff <= 1) by (vm_compute; discriminate).
  assert (P : 0 <= x * unitRoundoff) by (apply Qmult_le_0_compat; lra).
  assert (P1 : x * unitRoundoff <= x).
  { setoid_replace x with (x * 1) at 2 by ring.
    rewrite (Qmult_comm x unitRoundoff), (Qmult_comm x 1).
    apply Qmult_le_compat_r; lra. }
  assert (E : Qle_bool (Qabs (binary64 x)) MAX_VALUE = true).
  { apply Qle_bool_iff. apply Qabs_Qle_condition.
    assert (M : 2199023255552 <= MAX_VALUE) by (vm_compute; discriminate).
    split; lra. }
  rewrite E. split; [reflexivity |]. split; lra.
Qed.

(** Some values, as the language computes them.  The sum [0.25 + 0.05] is
    the double next below 0.3, the one the literal 0.3 denotes; [0.1 + 0.2]
    is the double next above it; the double nearest to [17/102], times 51,
    is 8.5, while the exact product is smaller.  The integers up to [2^53]
    are doubles, [2^53 + 1] is not.  A result halfway beyond
    [Number.MAX_VALUE] is an infinity, and half the smallest positive
    double is rounded to 0. *)
Example doubles_as_computed :
  Double.add (Num 0.25) (toDouble 0.05) = toDouble 0.3
  /\ toDouble 0.3 = Num (5404319552844595 # 18014398509481984)
  /\ Double.add (toDouble 0.1) (toDouble 0.2)
     = Num (1351079888211149 # 4503599627370496)
  /\ Double.mul (toDouble (17 # 102)) (Num 51) = Num (17 # 2)
  /\ toDouble (inject_Z (2 ^ 53)) = Num (inject_Z (2 ^ 53))
  /\ toDouble (inject_Z (2 ^ 53 + 1)) = Num (inject_Z (2 ^ 53))
  /\ toDouble (MAX_VALUE + inject_Z (2 ^ 970)) = Infinity
  /\ toDouble (MAX_VALUE + inject_Z (2 ^ 970 - 1)) = Num MAX_VALUE
  /\ toDouble (2 ^ (-1074)) = Num (2 ^ (-1074))
  /\ toDouble (2 ^ (-1075)) = Num 0.
Proof. repeat split; vm_compute; reflexivity. Qed.

Local Close Scope Q_scope.

(* ================================================================== *)
(** ** Breakpoint updates in binary64 arithmetic *)
(* ================================================================== *)

Local Open Scope Q_scope.

Lemma minGap_value : toDouble 0.05 = Num minGapDouble.
Proof. vm_compute. reflexivity. Qed.












(** A stored gap can be smaller than 0.05: dragging the second of the
    three even lines of a 4-column grid to the far left stores the rounded
    sum [0.25 + 0.05], the double the literal 0.3 denotes, which is less
    than 0.05 above 0.25. *)
Example stored_gap_below_minimum :
  let st := Double.applyUpdates [ColSplit 1 (toDouble 0.01)] (Double.evenState 4 4) in
  customColSplits st = [Num (1 # 4); toDouble 0.3; Num (3 # 4)]
  /\ ~ spaced 0.05 0 (customColSplits st)
  /\ spaced 0.0495 0 (customColSplits st).
Proof.
  cbv zeta. split; [vm_compute; reflexivity |]. split.
  - vm_compute. intros (_ & H & _). apply H. reflexivity.
  - vm_compute. repeat split; intros H; discriminate H.
Qed.











Local Close Scope Q_scope.

(* ================================================================== *)
(** ** The slicing loop in binary64 arithmetic *)
(* ================================================================== *)

Local Open Scope nat_scope.

Lemma colLoop_double imgWidth cols colSizes r sy sh newSlices k :
  Double.colLoop imgWidth cols colSizes r sy sh newSlices k
  = (Double.accBefore imgWidth cols colSizes k,
     newSlices ++ map (Double.colCell imgWidth cols colSizes r sy sh) (seq 0 k)).
Proof.
  unfold Double.colLoop. induction k as [| k IH].
  - cbn. rewrite app_nil_r. reflexivity.
  - rewrite seq_S, fold_left_app, IH. cbn [fold_left Double.colBody Nat.add].
    rewrite map_app, app_assoc. reflexivity.
Qed.

Lemma rowLoop_double imgWidth imgHeight rows cols rowSizes colSizes k :
  fold_left (Double.rowBody imgWidth imgHeight rows cols rowSizes colSizes)
            (seq 0 k) (Num 0, [])
  = (Double.accBefore imgHeight rows rowSizes k,
     flat_map (fun r => map (Double.gridCell imgWidth imgHeight rows cols
                                             rowSizes colSizes r)
                            (seq 0 cols))
              (seq 0 k)).
Proof.
  induction k as [| k IH].
  - reflexivity.
  - rewrite seq_S, fold_left_app, IH. cbn [fold_left Double.rowBody Nat.add].
    rewrite colLoop_double. cbn [snd]. rewrite flat_map_app. cbn [flat_map].
    rewrite app_nil_r. reflexivity.
Qed.

Lemma performSlice_double imgWidth imgHeight rows cols rowFractions colFractions :
  Double.performSlice imgWidth imgHeight rows cols rowFractions colFractions
  = flat_map (fun r => map (Double.gridCell imgWidth imgHeight rows cols
                                            (Double.sizesOf imgHeight rowFractions)
                                            (Double.sizesOf imgWidth colFractions) r)
                           (seq 0 cols))
             (seq 0 rows).
Proof.
  unfold Double.performSlice, Double.sliceLoop.
  fold (Double.sizesOf imgHeight rowFractions).
  fold (Double.sizesOf imgWidth colFractions). rewrite rowLoop_double. reflexivity.
Qed.

Local Open Scope Q_scope.

(** ** Stops, fractions and sizes of valid breakpoints *)

Lemma Qfloor_between (z : Z) (q : Q) :
  inject_Z z <= q -> q < inject_Z (z + 1) -> Qfloor q = z.
Proof.
  intros H1 H2.
  assert (L : (z <= Qfloor q)%Z).
  { rewrite <- (Qfloor_Z z). apply Qfloor_resp_le. exact H1. }
  assert (U : (Qfloor q < z + 1)%Z).
  { rewrite Zlt_Qlt. eapply Qle_lt_trans; [apply Qfloor_le | exact H2]. }
  lia.
Qed.

Lemma round_ofZ z : Math.round (ofZ z) = ofZ z.
Proof.
  unfold Math.round, ofZ. do 2 f_equal. apply Qfloor_between.
  - lra.
  - rewrite inject_Z_plus. change (inject_Z 1) with 1. lra.
Qed.

Lemma spaced_steps gap splits : forall lo k,
  spaced gap lo splits -> (k <= length splits)%nat ->
  nth k (lo :: map toQ splits ++ [1]) 0 + gap
  <= nth (S k) (lo :: map toQ splits ++ [1]) 0.
Proof.
  induction splits as [| [b | | |] rest IH]; intros lo k Hs Hk; cbn [spaced] in Hs;
    try contradiction.
  - cbn in Hk. replace k with 0%nat by lia. exact Hs.
  - destruct Hs as [Hb Hr]. destruct k as [| k]; [exact Hb |].
    cbn [length] in Hk. apply (IH b k Hr). lia.
Qed.

Lemma increasing_clamp01 splits : forall lo,
  0 <= lo -> increasingWithin lo splits ->
  map clamp01 splits = map Num (map toQ splits).
Proof.
  induction splits as [| [b | | |] rest IH]; intros lo Hlo Hs; cbn [increasingWithin] in Hs;
    try contradiction; [reflexivity |].
  destruct Hs as (H1 & H2 & Hr). cbn [map toQ]. f_equal.
  - apply clampValue_inside; lra.
  - apply (IH b); [lra | exact Hr].
Qed.

Lemma nth_map_Num (l : list Q) k :
  (k < length l)%nat -> nth k (map Num l) NaN = Num (nth k l 0).
Proof.
  intros H. rewrite (nth_indep _ NaN (Num 0)) by (rewrite length_map; exact H).
  apply map_nth.
Qed.

Lemma sub_one_double n :
  (1 <= n <= 8)%nat -> Double.sub (ofNat n) (Num 1) = ofZ (Z.of_nat n - 1).
Proof.
  intros H. pose proof (count_cases n H) as C.
  repeat (destruct C as [-> | C]; [vm_compute; reflexivity |]).
  subst n. vm_compute. reflexivity.
Qed.

Lemma sliceTo_ofZ {A : Type} (k : Z) (a : list A) :
  (0 <= k)%Z -> sliceTo (ofZ k) a = firstn (Z.to_nat k) a.
Proof.
  intros Hk. unfold sliceTo, ofZ, ToIntegerOrInfinity, truncate.
  assert (E : Qle_bool 0 (inject_Z k) = true).
  { apply Qle_bool_iff. change 0 with (inject_Z 0). rewrite <- Zle_Qle. exact Hk. }
  rewrite E, Qfloor_Z.
  destruct (k <? 0)%Z eqn:E1; [apply Z.ltb_lt in E1; lia | reflexivity].
Qed.

(** The stops of valid breakpoints are the breakpoints themselves between 0
    and 1. *)
Lemma buildStops_double (n : nat) splits :
  (1 <= n <= 8)%nat -> length splits = (n - 1)%nat -> spaced 0.0495 0 splits ->
  Double.buildStops (ofNat n) splits = map Num (stopsOf splits).
Proof.
  intros Hn Hl Hs. unfold Double.buildStops.
  assert (Es : map clamp01 splits = map Num (map toQ splits)).
  { apply (increasing_clamp01 splits 0); [lra |].
    apply (spaced_increasing 0.0495); [lra | exact Hs]. }
  unfold stopsOf. cbn [map]. rewrite map_app. cbn [map].
  destruct (num_le (ofNat n) (Num 1)) eqn:E.
  - unfold ofNat, ofZ, num_le in E. apply Qle_bool_iff in E.
    change 1 with (inject_Z 1) in E. rewrite <- Zle_Qle in E.
    assert (n = 1%nat) by lia. subst n.
    destruct splits; [reflexivity | discriminate Hl].
  - rewrite (sub_one_double n Hn), sliceTo_ofZ by lia.
    replace (Z.to_nat (Z.of_nat n - 1)) with (n - 1)%nat by lia.
    rewrite firstn_all2 by lia. fold clamp01.
    change (map (fun value => clampValue value (Num 0) (Num 1)) splits)
      with (map clamp01 splits).
    rewrite Es. reflexivity.
Qed.

Lemma buildFractions_double stops :
  Double.buildFractions stops = Double.differences stops.
Proof.
  unfold Double.buildFractions.
  assert (G : forall rest pre a,
             mapi (fun stop index =>
                     Math.max (Num 0) (Double.sub stop (arrayGet (pre ++ a :: rest) index)))
                  (length pre) rest
             = Double.differences (a :: rest)).
  { induction rest as [| b rest IH]; intros pre a; [reflexivity |].
    cbn [mapi Double.differences]. f_equal.
    - unfold arrayGet. rewrite nth_middle. reflexivity.
    - specialize (IH (pre ++ [a]) b).
      rewrite <- app_assoc, length_app in IH. cbn [app length] in IH.
      rewrite Nat.add_1_r in IH. exact IH. }
  destruct stops as [| a rest]; [reflexivity |].
  exact (G rest [] a).
Qed.

Lemma nth_differences_double l : forall k,
  (S k < length l)%nat ->
  nth k (Double.differences l) NaN
  = Math.max (Num 0) (Double.sub (nth (S k) l NaN) (nth k l NaN)).
Proof.
  induction l as [| a [| b rest] IH]; intros k Hk; cbn [length] in Hk; try lia.
  destruct k as [| k]; [reflexivity |].
  cbn [Double.differences nth]. apply IH. cbn [length]. lia.
Qed.

Lemma arrayGet_sizes_double total fractions i :
  arrayGet (Double.sizesOf total fractions) i
  = Double.mul (arrayGet fractions i) (ofZ total).
Proof.
  unfold arrayGet, Double.sizesOf.
  destruct (Nat.lt_ge_cases i (length fractions)) as [Hlt | Hge].
  - rewrite (nth_indep _ NaN ((fun fraction => Double.mul fraction (ofZ total)) NaN))
      by (rewrite length_map; exact Hlt).
    exact (map_nth (fun fraction => Double.mul fraction (ofZ total)) fractions NaN i).
  - rewrite !nth_overflow by (rewrite ?length_map; exact Hge). reflexivity.
Qed.

Lemma total_bounds (total : Z) :
  (1 <= total < 2 ^ 32)%Z -> 1 <= inject_Z total /\ inject_Z total <= 4294967296.
Proof.
  intros [H1 H2]. split.
  - change 1 with (inject_Z 1). rewrite <- Zle_Qle. exact H1.
  - change 4294967296 with (inject_Z (2 ^ 32)). rewrite <- Zle_Qle. lia.
Qed.

(** The size of cell [k] of an axis with valid breakpoints: the share of
    the cell in the total, up to the two roundings of the difference and
    of the product. *)
Lemma sizes_double (total : Z) (n : nat) splits k :
  (1 <= n <= 8)%nat -> length splits = (n - 1)%nat -> spaced 0.0495 0 splits ->
  (1 <= total < 2 ^ 32)%Z ->
  (k < n)%nat ->
  exists size,
    arrayGet (Double.sizesOf total
                (Double.buildFractions (Double.buildStops (ofNat n) splits))) k
    = Num size
    /\ (nth (S k) (stopsOf splits) 0 - nth k (stopsOf splits) 0) * inject_Z total
       * (1 - (1 # 2251799813685248)) <= size
    /\ size <= (nth (S k) (stopsOf splits) 0 - nth k (stopsOf splits) 0) * inject_Z total
               * (1 + (1 # 2251799813685248)).
Proof.
  intros Hn Hl Hs Ht Hk.
  destruct (total_bounds total Ht) as [T1 T2].
  assert (Len : length (stopsOf splits) = S n).
  { unfold stopsOf. cbn [length]. rewrite length_app, length_map. cbn [length]. lia. }
  rewrite arrayGet_sizes_double, buildFractions_double, buildStops_double by assumption.
  unfold arrayGet. rewrite nth_differences_double by (rewrite length_map; lia).
  rewrite !nth_map_Num by lia.
  pose proof (spaced_steps 0.0495 splits 0 k Hs ltac:(lia)) as St.
  fold (stopsOf splits) in St.
  assert (Up : nth (S k) (stopsOf splits) 0 - nth k (stopsOf splits) 0 <= 1).
  { assert (B : forall j, (j <= n)%nat ->
                 0 <= nth j (stopsOf splits) 0
                 /\ (forall i, (i <= j)%nat ->
                       nth i (stopsOf splits) 0 <= nth j (stopsOf splits) 0)).
    { induction j as [| j IHj]; intros Hj.
      - split; [cbn; lra |]. intros i Hi. replace i with 0%nat by lia. lra.
      - destruct (IHj ltac:(lia)) as [P0 Pm].
        pose proof (spaced_steps 0.0495 splits 0 j Hs ltac:(lia)) as Sj.
        fold (stopsOf splits) in Sj. split; [lra |].
        intros i Hi. destruct (Nat.eq_dec i (S j)) as [-> | Hne]; [lra |].
        specialize (Pm i ltac:(lia)). lra. }
    assert (L1 : nth n (stopsOf splits) 0 = 1).
    { unfold stopsOf. change (0 :: map toQ splits ++ [1])
        with ((0 :: map toQ splits) ++ [1]).
      replace n with (length (0 :: map toQ splits))
        by (cbn [length]; rewrite length_map; lia).
      apply nth_middle. }
    destruct (B n ltac:(lia)) as [_ Bn]. destruct (B k ltac:(lia)) as [Bk _].
    specialize (Bn (S k) ltac:(lia)). rewrite L1 in Bn. lra. }
  assert (Lo : 0.0495 <= nth (S k) (stopsOf splits) 0 - nth k (stopsOf splits) 0) by lra.
  unfold Double.sub. cbn [num_sub rounded].
  set (d := nth (S k) (stopsOf splits) 0 - nth k (stopsOf splits) 0) in *.
  destruct (toDouble_accurate d) as (f & Ef & F1 & F2); [lra | lra |].
  rewrite Ef. unfold unitRoundoff in F1, F2.
  assert (Fp : 0 < f) by lra.
  assert (Em : Math.max (Num 0) (Num f) = Num f).
  { unfold Math.max, num_le. destruct (Qle_bool 0 f) eqn:E; [reflexivity |].
    apply Qle_bool_false in E. lra. }
  rewrite Em. unfold Double.mul, ofZ. cbn [num_mul rounded].
  assert (P1 : d * (1 - (1 # 9007199254740992)) * inject_Z total <= f * inject_Z total).
  { apply Qmult_le_compat_r; lra. }
  assert (P2 : f * inject_Z total <= d * (1 + (1 # 9007199254740992)) * inject_Z total).
  { apply Qmult_le_compat_r; lra. }
  assert (P3 : 0.0495 * inject_Z total <= d * inject_Z total).
  { apply Qmult_le_compat_r; lra. }
  assert (P4 : d * inject_Z total <= 1 * inject_Z total).
  { apply Qmult_le_compat_r; lra. }
  set (dt := d * inject_Z total) in *.
  assert (Q1 : dt * (1 - (1 # 9007199254740992)) <= f * inject_Z total)
    by (subst dt; lra).
  assert (Q2 : f * inject_Z total <= dt * (1 + (1 # 9007199254740992)))
    by (subst dt; lra).
  clear P1 P2.
  destruct (toDouble_accurate (f * inject_Z total)) as (size & Esz & S1 & S2);
    [lra | lra |].
  exists size. split; [exact Esz |]. unfold unitRoundoff in S1, S2.
  set (ft := f * inject_Z total) in *.
  assert (R1 : dt * (1 - (1 # 9007199254740992)) * (1 - (1 # 9007199254740992))
               <= ft * (1 - (1 # 9007199254740992))).
  { apply Qmult_le_compat_r; lra. }
  assert (R2 : ft * (1 + (1 # 9007199254740992))
               <= dt * (1 + (1 # 9007199254740992)) * (1 + (1 # 9007199254740992))).
  { apply Qmult_le_compat_r; lra. }
  split; lra.
Qed.

(** ** The boundaries of an axis with valid breakpoints *)

Lemma zEdge_end total count sizes :
  (1 <= count)%nat -> Double.zEdge total count sizes count = total.
Proof.
  intros H. destruct count as [| m]; [lia |]. cbn [Double.zEdge].
  replace (S m - 1)%nat with m by lia. rewrite Nat.eqb_refl. reflexivity.
Qed.

Section Chain.
Variables (total : Z) (n : nat) (ss : list Q) (sizes : list number).
Hypothesis Hn : (1 <= n <= 8)%nat.
Hypothesis Htotal : (1 <= total < 2 ^ 32)%Z.
Hypothesis Hfirst : nth 0 ss 0 = 0.
Hypothesis Hlast : nth n ss 0 = 1.
Hypothesis Hstep : forall k, (k < n)%nat -> nth k ss 0 + 0.0495 <= nth (S k) ss 0.
Hypothesis Hsizes : forall k, (k < n)%nat ->
  exists size,
    arrayGet sizes k = Num size
    /\ (nth (S k) ss 0 - nth k ss 0) * inject_Z total * (1 - (1 # 2251799813685248))
       <= size
    /\ size <= (nth (S k) ss 0 - nth k ss 0) * inject_Z total
               * (1 + (1 # 2251799813685248)).

Local Abbreviation z := (Double.zEdge total n sizes).

Lemma stops_from_below k : (k <= n)%nat -> 0 <= nth k ss 0.
Proof.
  induction k as [| k IH]; intros Hk; [rewrite Hfirst; lra |].
  specialize (IH ltac:(lia)). pose proof (Hstep k ltac:(lia)). lra.
Qed.

Lemma stops_from_above j :
  (j <= n)%nat -> nth (n - j) ss 0 + inject_Z (Z.of_nat j) * 0.0495 <= 1.
Proof.
  induction j as [| j IH]; intros Hj.
  - rewrite Nat.sub_0_r, Hlast. change (inject_Z (Z.of_nat 0)) with 0. lra.
  - specialize (IH ltac:(lia)). pose proof (Hstep (n - S j)%nat ltac:(lia)) as St.
    replace (S (n - S j)) with (n - j)%nat in St by lia.
    rewrite Nat2Z.inj_succ. unfold Z.succ. rewrite inject_Z_plus.
    change (inject_Z 1) with 1. lra.
Qed.

Lemma stop_below_one k : (k < n)%nat -> nth k ss 0 <= 1 - 0.0495.
Proof.
  intros Hk. pose proof (stops_from_above (n - k) ltac:(lia)) as A.
  replace (n - (n - k))%nat with k in A by lia.
  assert (1 <= inject_Z (Z.of_nat (n - k))).
  { change 1 with (inject_Z 1). rewrite <- Zle_Qle. lia. }
  lra.
Qed.

(** The size of a cell lies between 0.0495 and 1 times the total, up to
    rounding. *)
Lemma size_range k :
  (k < n)%nat ->
  exists size,
    arrayGet sizes k = Num size
    /\ 0.049 * inject_Z total <= size /\ size <= 1.0001 * inject_Z total
    /\ size <= (nth (S k) ss 0 - nth k ss 0) * inject_Z total
               + (1 # 524288).
Proof.
  intros Hk. destruct (total_bounds total Htotal) as [T1 T2].
  destruct (Hsizes k Hk) as (size & E & S1 & S2).
  exists size. split; [exact E |].
  pose proof (Hstep k Hk) as St. pose proof (stops_from_below k ltac:(lia)) as Lk.
  assert (Uk : nth (S k) ss 0 <= 1).
  { destruct (Nat.eq_dec (S k) n) as [En | Hne]; [rewrite En, Hlast; lra |].
    pose proof (stop_below_one (S k) ltac:(lia)). lra. }
  assert (Lo : 0.0495 <= nth (S k) ss 0 - nth k ss 0) by lra.
  assert (Up : nth (S k) ss 0 - nth k ss 0 <= 1) by lra.
  set (d := nth (S k) ss 0 - nth k ss 0) in *.
  assert (P3 : 0.0495 * inject_Z total <= d * inject_Z total).
  { apply Qmult_le_compat_r; lra. }
  assert (P4 : d * inject_Z total <= 1 * inject_Z total).
  { apply Qmult_le_compat_r; lra. }
  set (dt := d * inject_Z total) in *.
  repeat split; lra.
Qed.

(** One step of the accumulator from an integer [a] of ordinary size. *)
Lemma boundary_step (a : Z) k :
  (k < n)%nat -> (0 <= a <= 2 ^ 33)%Z ->
  exists size t,
    arrayGet sizes k = Num size
    /\ Double.add (ofZ a) (arrayGet sizes k) = Num t
    /\ inject_Z a + size - (1 # 524288) <= t
    /\ t <= inject_Z a + size + (1 # 524288).
Proof.
  intros Hk [A1 A2]. destruct (total_bounds total Htotal) as [T1 T2].
  destruct (size_range k Hk) as (size & E & S1 & S2 & _).
  exists size. rewrite E. unfold Double.add, ofZ. cbn [num_add rounded].
  assert (Q1 : 0 <= inject_Z a).
  { change 0 with (inject_Z 0). rewrite <- Zle_Qle. exact A1. }
  assert (Q2 : inject_Z a <= 8589934592).
  { change 8589934592 with (inject_Z (2 ^ 33)). rewrite <- Zle_Qle. exact A2. }
  destruct (toDouble_accurate (inject_Z a + size)) as (t & Et & B1 & B2); [lra | lra |].
  exists t. split; [reflexivity |]. split; [exact Et |].
  unfold unitRoundoff in B1, B2. split; lra.
Qed.

Lemma zEdge_step k :
  (k < n - 1)%nat ->
  z (S k) = Qfloor (toQ (Double.add (ofZ (z k)) (arrayGet sizes k)) + (1 # 2)).
Proof.
  intros Hk. cbn [Double.zEdge].
  destruct (k =? n - 1)%nat eqn:E; [apply Nat.eqb_eq in E; lia | reflexivity].
Qed.

(** The rounded boundary is an integer that never runs more than half a
    pixel per cell, and the rounding errors, ahead of the exact one. *)
Lemma zEdge_drift k :
  (k <= n - 1)%nat ->
  (0 <= z k)%Z
  /\ inject_Z (z k)
     <= inject_Z total * nth k ss 0
        + inject_Z (Z.of_nat k) * ((1 # 2) + (1 # 262144)).
Proof.
  destruct (total_bounds total Htotal) as [T1 T2].
  induction k as [| k IH]; intros Hk.
  - cbn [Double.zEdge]. split; [lia |]. rewrite Hfirst.
    change (inject_Z (Z.of_nat 0)) with 0. change (inject_Z 0) with 0. lra.
  - destruct (IH ltac:(lia)) as [Z0 ZU].
    pose proof (stop_below_one k ltac:(lia)) as Sk.
    pose proof (stops_from_below k ltac:(lia)) as Lk.
    assert (K8 : inject_Z (Z.of_nat k) <= 8).
    { change 8 with (inject_Z 8). rewrite <- Zle_Qle. lia. }
    assert (K0 : 0 <= inject_Z (Z.of_nat k)).
    { change 0 with (inject_Z 0). rewrite <- Zle_Qle. lia. }
    assert (P : inject_Z total * nth k ss 0 <= inject_Z total * 1).
    { rewrite (Qmult_comm _ (nth k ss 0)), (Qmult_comm _ 1).
      apply Qmult_le_compat_r; lra. }
    assert (ZB : (z k <= 2 ^ 33)%Z).
    { rewrite Zle_Qle. change (inject_Z (2 ^ 33)) with 8589934592. lra. }
    destruct (boundary_step (z k) k ltac:(lia) ltac:(lia))
      as (size & t & E & Et & B1 & B2).
    destruct (size_range k ltac:(lia)) as (size' & E' & S1 & S2 & S3).
    rewrite E in E'. injection E' as <-.
    rewrite zEdge_step by lia. rewrite Et. cbn [toQ].
    assert (Q0 : 0 <= inject_Z (z k)).
    { change 0 with (inject_Z 0). rewrite <- Zle_Qle. exact Z0. }
    split.
    + change 0%Z with (Qfloor 0). apply Qfloor_resp_le. lra.
    + eapply Qle_trans; [apply Qfloor_le |].
      rewrite Nat2Z.inj_succ. unfold Z.succ. rewrite inject_Z_plus.
      change (inject_Z 1) with 1.
      set (sk := nth k ss 0) in *. set (sk1 := nth (S k) ss 0) in *.
      setoid_replace ((sk1 - sk) * inject_Z total)
        with (inject_Z total * sk1 - inject_Z total * sk) in S3 by ring.
      lra.
Qed.

Lemma zEdge_bounded k : (k <= n)%nat -> (0 <= z k <= 2 ^ 33)%Z.
Proof.
  intros Hk. destruct (total_bounds total Htotal) as [T1 T2].
  destruct (Nat.eq_dec k n) as [-> | Hne].
  - rewrite zEdge_end by lia. lia.
  - destruct (zEdge_drift k ltac:(lia)) as [Z0 ZU]. split; [exact Z0 |].
    pose proof (stop_below_one k ltac:(lia)) as Sk.
    pose proof (stops_from_below k ltac:(lia)) as Lk.
    assert (K8 : inject_Z (Z.of_nat k) <= 8).
    { change 8 with (inject_Z 8). rewrite <- Zle_Qle. lia. }
    assert (K0 : 0 <= inject_Z (Z.of_nat k)).
    { change 0 with (inject_Z 0). rewrite <- Zle_Qle. lia. }
    assert (P : inject_Z total * nth k ss 0 <= inject_Z total * 1).
    { rewrite (Qmult_comm _ (nth k ss 0)), (Qmult_comm _ 1).
      apply Qmult_le_compat_r; lra. }
    rewrite Zle_Qle. change (inject_Z (2 ^ 33)) with 8589934592. lra.
Qed.

(** Every accumulator is an integer. *)
Lemma accBefore_double k :
  (k <= n)%nat -> Double.accBefore total n sizes k = ofZ (z k).
Proof.
  induction k as [| k IH]; intros Hk; [reflexivity |].
  cbn [Double.accBefore Double.zEdge]. unfold Double.boundaryAfter.
  destruct (k =? n - 1)%nat eqn:E; [reflexivity |].
  apply Nat.eqb_neq in E. rewrite IH by lia.
  destruct (boundary_step (z k) k ltac:(lia) (zEdge_bounded k ltac:(lia)))
    as (size & t & _ & Et & _).
  rewrite Et. reflexivity.
Qed.

(** On an image that leaves room for the cells the boundaries are strictly
    increasing. *)
Lemma zEdge_increasing k :
  (10 * (Z.of_nat n - 1) < total)%Z ->
  (k < n)%nat -> (z k + 1 <= z (S k))%Z.
Proof.
  intros Hroom Hk. destruct (total_bounds total Htotal) as [T1 T2].
  assert (R : 10 * (inject_Z (Z.of_nat n) - 1) + 1 <= inject_Z total).
  { assert (H : (10 * (Z.of_nat n - 1) + 1 <= total)%Z) by lia.
    rewrite Zle_Qle in H. rewrite inject_Z_plus, inject_Z_mult in H.
    unfold Zminus in H. rewrite inject_Z_plus, inject_Z_opp in H.
    change (inject_Z 10) with 10 in H. change (inject_Z 1) with 1 in H. lra. }
  assert (N8 : inject_Z (Z.of_nat n) <= 8).
  { change 8 with (inject_Z 8). rewrite <- Zle_Qle. lia. }
  destruct (Nat.eq_dec k (n - 1)) as [-> | Hne].
  - (* the last cell ends at [total] *)
    replace (S (n - 1)) with n by lia. rewrite zEdge_end by lia.
    destruct (zEdge_drift (n - 1) ltac:(lia)) as [_ D].
    pose proof (stop_below_one (n - 1) ltac:(lia)) as Sk.
    assert (E : inject_Z (Z.of_nat (n - 1)) == inject_Z (Z.of_nat n) - 1).
    { rewrite Nat2Z.inj_sub by lia. unfold Zminus.
      rewrite inject_Z_plus, inject_Z_opp. reflexivity. }
    assert (N1 : 1 <= inject_Z (Z.of_nat n)).
    { change 1 with (inject_Z 1). rewrite <- Zle_Qle. lia. }
    assert (P : inject_Z total * nth (n - 1) ss 0 <= inject_Z total * (1 - 0.0495)).
    { rewrite (Qmult_comm _ (nth (n - 1) ss 0)), (Qmult_comm _ (1 - 0.0495)).
      apply Qmult_le_compat_r; lra. }
    assert (L : inject_Z (z (n - 1)) < inject_Z total) by lra.
    rewrite <- Zlt_Qlt in L. lia.
  - (* an inner cell is at least half a pixel wide *)
    assert (N2 : 2 <= inject_Z (Z.of_nat n)).
    { change 2 with (inject_Z 2). rewrite <- Zle_Qle. lia. }
    destruct (boundary_step (z k) k Hk (zEdge_bounded k ltac:(lia)))
      as (size & t & E & Et & B1 & B2).
    destruct (size_range k Hk) as (size' & E' & S1 & S2 & S3).
    rewrite E in E'. injection E' as <-.
    rewrite zEdge_step by lia. rewrite Et. cbn [toQ].
    rewrite <- (Qfloor_Z (z k + 1)) at 1.
    apply Qfloor_resp_le. rewrite inject_Z_plus. change (inject_Z 1) with 1. lra.
Qed.

End Chain.

(** The integer boundaries of an axis with valid breakpoints. *)
Lemma axis_double (total : Z) (n : nat) splits :
  (1 <= n <= 8)%nat -> length splits = (n - 1)%nat -> spaced 0.0495 0 splits ->
  (1 <= total < 2 ^ 32)%Z ->
  let sizes := Double.sizesOf total
                 (Double.buildFractions (Double.buildStops (ofNat n) splits)) in
  (forall k, (k <= n)%nat ->
     Double.accBefore total n sizes k = ofZ (Double.zEdge total n sizes k)
     /\ (0 <= Double.zEdge total n sizes k <= 2 ^ 33)%Z)
  /\ Double.zEdge total n sizes 0 = 0%Z
  /\ Double.zEdge total n sizes n = total
  /\ ((10 * (Z.of_nat n - 1) < total)%Z ->
      forall k, (k < n)%nat ->
        (Double.zEdge total n sizes k + 1 <= Double.zEdge total n sizes (S k))%Z).
Proof.
  intros Hn Hl Hs Ht sizes.
  assert (F : nth 0 (stopsOf splits) 0 = 0) by reflexivity.
  assert (L : nth n (stopsOf splits) 0 = 1).
  { unfold stopsOf. change (0 :: map toQ splits ++ [1])
      with ((0 :: map toQ splits) ++ [1]).
    replace n with (length (0 :: map toQ splits))
      by (cbn [length]; rewrite length_map; lia).
    apply nth_middle. }
  assert (St : forall k, (k < n)%nat ->
             nth k (stopsOf splits) 0 + 0.0495 <= nth (S k) (stopsOf splits) 0).
  { intros j Hj. apply (spaced_steps 0.0495 splits 0 j Hs). lia. }
  assert (Sz : forall k, (k < n)%nat ->
             exists size,
               arrayGet sizes k = Num size
               /\ (nth (S k) (stopsOf splits) 0 - nth k (stopsOf splits) 0)
                  * inject_Z total * (1 - (1 # 2251799813685248)) <= size
               /\ size <= (nth (S k) (stopsOf splits) 0 - nth k (stopsOf splits) 0)
                          * inject_Z total * (1 + (1 # 2251799813685248))).
  { intros k Hk. apply sizes_double; assumption. }
  split.
  { intros k Hk. split.
    - apply (accBefore_double total n (stopsOf splits) sizes); assumption.
    - apply (zEdge_bounded total n (stopsOf splits) sizes); assumption. }
  split; [reflexivity |].
  split; [apply zEdge_end; lia |].
  intros Hroom k Hk.
  apply (zEdge_increasing total n (stopsOf splits) sizes); assumption.
Qed.

(** ** The rectangles *)

Lemma table_ext {A : Type} (f g : nat -> nat -> A) cols rows :
  (forall r c, (r < rows)%nat -> (c < cols)%nat -> f r c = g r c) ->
  flat_map (fun r => map (f r) (seq 0 cols)) (seq 0 rows)
  = flat_map (fun r => map (g r) (seq 0 cols)) (seq 0 rows).
Proof.
  induction rows as [| rows IH]; intros H; [reflexivity |].
  rewrite seq_S, !flat_map_app, IH by (intros r c Hr Hc; apply H; lia).
  cbn [flat_map Nat.add]. rewrite !app_nil_r. f_equal.
  apply map_ext_in. intros c Hc. apply in_seq in Hc. apply H; lia.
Qed.

Lemma sub_ofZ (b a : Z) :
  (Z.abs (b - a) < 2 ^ 53)%Z -> Double.sub (ofZ b) (ofZ a) = ofZ (b - a).
Proof.
  intros H. unfold Double.sub, ofZ. cbn [num_sub rounded].
  rewrite (toDouble_comp (inject_Z b - inject_Z a) (inject_Z (b - a))).
  - apply toDouble_integer. exact H.
  - unfold Zminus. rewrite inject_Z_plus, inject_Z_opp. reflexivity.
Qed.

Lemma Qle_bool_inject a p : Qle_bool (inject_Z a) (inject_Z p) = (a <=? p)%Z.
Proof.
  apply eq_true_iff_eq. rewrite Qle_bool_iff, Z.leb_le, <- Zle_Qle. reflexivity.
Qed.

Lemma max_one_ofZ (d : Z) : Math.max (Num 1) (ofZ d) = ofZ (Z.max 1 d).
Proof.
  unfold Math.max, num_le, ofZ. change 1 with (inject_Z 1) at 1.
  rewrite Qle_bool_inject.
  destruct (Z.leb_spec 1 d).
  - rewrite Z.max_r by lia. reflexivity.
  - rewrite Z.max_l by lia. reflexivity.
Qed.

(** The cell between the integer boundaries [a] and [b] of an axis. *)
Lemma cell_between total count sizes acc i (a b : Z) :
  acc = ofZ a ->
  Double.boundaryAfter total count sizes acc i = ofZ b ->
  (0 <= a <= 2 ^ 33)%Z -> (0 <= b <= 2 ^ 33)%Z ->
  Math.round acc = ofZ a
  /\ Double.cellExtent total count sizes acc i = ofZ (Z.max 1 (b - a)).
Proof.
  intros -> Eb Ha Hb. unfold Double.cellExtent. rewrite Eb, round_ofZ.
  split; [reflexivity |].
  rewrite sub_ofZ by lia. apply max_one_ofZ.
Qed.

Section Cells.
Variables (imgWidth imgHeight : Z) (rows cols : nat).
Variables (rowSplits colSplits : list number).
Hypothesis Hrows : (1 <= rows <= 8)%nat.
Hypothesis Hcols : (1 <= cols <= 8)%nat.
Hypothesis Lrows : length rowSplits = (rows - 1)%nat.
Hypothesis Lcols : length colSplits = (cols - 1)%nat.
Hypothesis Srows : spaced 0.0495 0 rowSplits.
Hypothesis Scols : spaced 0.0495 0 colSplits.
Hypothesis Hheight : (1 <= imgHeight < 2 ^ 32)%Z.
Hypothesis Hwidth : (1 <= imgWidth < 2 ^ 32)%Z.

Local Abbreviation rowSizes :=
  (Double.sizesOf imgHeight
     (Double.buildFractions (Double.buildStops (ofNat rows) rowSplits))).
Local Abbreviation colSizes :=
  (Double.sizesOf imgWidth
     (Double.buildFractions (Double.buildStops (ofNat cols) colSplits))).
Local Abbreviation zx := (Double.zEdge imgWidth cols colSizes).
Local Abbreviation zy := (Double.zEdge imgHeight rows rowSizes).

(** The rectangle of row [r] and column [c] lies between the integer
    boundaries of its row and of its column, and is at least one pixel
    wide and high. *)
Lemma gridCell_double r c :
  (r < rows)%nat -> (c < cols)%nat ->
  Double.gridCell imgWidth imgHeight rows cols rowSizes colSizes r c
  = cellRect zx zy r c.
Proof.
  intros Hr Hc.
  destruct (axis_double imgWidth cols colSplits Hcols Lcols Scols Hwidth)
    as (Ax & _).
  destruct (axis_double imgHeight rows rowSplits Hrows Lrows Srows Hheight)
    as (Ay & _).
  destruct (Ax c ltac:(lia)) as [Xc Bc]. destruct (Ax (S c) ltac:(lia)) as [Xc' Bc'].
  destruct (Ay r ltac:(lia)) as [Yr Br]. destruct (Ay (S r) ltac:(lia)) as [Yr' Br'].
  destruct (cell_between imgWidth cols colSizes _ c (zx c) (zx (S c)) Xc Xc' Bc Bc')
    as [E1 E2].
  destruct (cell_between imgHeight rows rowSizes _ r (zy r) (zy (S r)) Yr Yr' Br Br')
    as [E3 E4].
  unfold Double.gridCell, cellRect, rect. rewrite E1, E2, E3, E4. reflexivity.
Qed.

Lemma sliceGrid_double :
  Double.sliceGrid imgWidth imgHeight rows cols rowSplits colSplits
  = flat_map (fun r => map (cellRect zx zy r) (seq 0 cols)) (seq 0 rows).
Proof.
  unfold Double.sliceGrid. rewrite performSlice_double.
  apply (table_ext (Double.gridCell imgWidth imgHeight rows cols rowSizes colSizes)).
  intros r c Hr Hc. apply gridCell_double; assumption.
Qed.

End Cells.

Local Close Scope Q_scope.

(* ================================================================== *)
(** ** Counting the rectangles over a pixel *)
(* ================================================================== *)

Local Open Scope Q_scope.

Lemma Qle_bool_edge a w p :
  negb (Qle_bool (inject_Z a + inject_Z w) (inject_Z p)) = (p <? a + w)%Z.
Proof.
  apply eq_true_iff_eq. rewrite negb_true_iff, Z.ltb_lt, Zlt_Qlt, inject_Z_plus.
  rewrite Qle_bool_false. reflexivity.
Qed.

Section Coverage.
Variables (rows cols : nat) (zx zy : nat -> Z).
Hypothesis Ix : forall k, (k < cols)%nat -> (zx k + 1 <= zx (S k))%Z.
Hypothesis Iy : forall k, (k < rows)%nat -> (zy k + 1 <= zy (S k))%Z.

Lemma covers_cellRect px py r c :
  (r < rows)%nat -> (c < cols)%nat ->
  covers px py (cellRect zx zy r c) = inBand zy py r && inBand zx px c.
Proof.
  intros Hr Hc. unfold covers, cellRect, rect, ofZ.
  cbn [startX startY sliceWidth sliceHeight].
  rewrite (Z.max_r 1 (zx (S c) - zx c)) by (specialize (Ix c Hc); lia).
  rewrite (Z.max_r 1 (zy (S r) - zy r)) by (specialize (Iy r Hr); lia).
  rewrite !Qle_bool_inject, !Qle_bool_edge.
  replace (zx c + (zx (S c) - zx c))%Z with (zx (S c)) by lia.
  replace (zy r + (zy (S r) - zy r))%Z with (zy (S r)) by lia.
  unfold inBand. destruct (zx c <=? px)%Z, (px <? zx (S c))%Z, (zy r <=? py)%Z,
    (py <? zy (S r))%Z; reflexivity.
Qed.

Lemma coverage_row px py r : forall cs,
  (r < rows)%nat -> (forall c, In c cs -> (c < cols)%nat) ->
  length (filter (covers px py) (map (cellRect zx zy r) cs))
  = if inBand zy py r then length (filter (inBand zx px) cs) else 0%nat.
Proof.
  induction cs as [| c cs IH]; intros Hr Hcs.
  - destruct (inBand zy py r); reflexivity.
  - cbn [map filter]. rewrite covers_cellRect by (auto using in_eq).
    specialize (IH Hr (fun c' H => Hcs c' (in_cons _ _ _ H))).
    destruct (inBand zy py r), (inBand zx px c); cbn [andb length]; rewrite IH;
      reflexivity.
Qed.

Lemma coverage_table px py : forall rs,
  (forall r, In r rs -> (r < rows)%nat) ->
  length (filter (covers px py)
            (flat_map (fun r => map (cellRect zx zy r) (seq 0 cols)) rs))
  = (length (filter (inBand zy py) rs) * length (filter (inBand zx px) (seq 0 cols)))%nat.
Proof.
  induction rs as [| r rs IH]; intros Hrs; [reflexivity |].
  cbn [flat_map filter]. rewrite filter_app, length_app.
  rewrite coverage_row; [| auto using in_eq | intros c Hc; apply in_seq in Hc; lia].
  rewrite IH by (intros r' H; apply Hrs, in_cons, H).
  destruct (inBand zy py r); cbn [length]; lia.
Qed.
End Coverage.

(** Exactly one cell of strictly increasing boundaries holds a point
    between the first and the last boundary, and none holds a point
    outside. *)
Lemma count_band (z : nat -> Z) (p : Z) : forall n,
  (forall k, (k < n)%nat -> (z k <= z (S k))%Z) ->
  (z 0%nat <= z n)%Z
  /\ length (filter (inBand z p) (seq 0 n))
     = if ((z 0%nat <=? p) && (p <? z n))%Z then 1%nat else 0%nat.
Proof.
  induction n as [| n IH]; intros Hz.
  - split; [lia |]. cbn [seq filter length].
    destruct (Z.leb_spec (z 0%nat) p), (Z.ltb_spec p (z 0%nat)); cbn; try reflexivity; lia.
  - destruct (IH (fun k H => Hz k (Nat.lt_lt_succ_r _ _ H))) as [Hm Hc].
    pose proof (Hz n (Nat.lt_succ_diag_r n)) as Hn.
    split; [lia |].
    rewrite seq_S, filter_app, length_app, Hc. cbn [Nat.add filter]. unfold inBand.
    destruct (Z.leb_spec (z 0%nat) p), (Z.ltb_spec p (z n)), (Z.leb_spec (z n) p),
      (Z.ltb_spec p (z (S n))); cbn; try reflexivity; lia.
Qed.

(** The far edge of a rectangle that starts at [a] and would end at [b]. *)
Lemma edge_of_rect (a b : Z) :
  numEq (ofZ a + ofZ (Z.max 1 (b - a)))%js (ofZ (Z.max b (a + 1))).
Proof.
  unfold ofZ. cbn [num_add numEq]. rewrite <- inject_Z_plus.
  replace (a + Z.max 1 (b - a))%Z with (Z.max b (a + 1)) by lia. reflexivity.
Qed.

(** C5 (amended).  For every grid of [rows] x [cols] cells, 1 <= rows,
    cols <= 8, with valid breakpoints (one per inner boundary, keeping the
    gap of at least 0.0495 that the stored breakpoints keep) and every image
    of positive size (below 2^32, as the sizes of an image element are),
    each row has a rectangle in the last column and each column one in the
    last row.  The rectangle of the last column starts at
    an integer [x] and its right edge is [max(width, x + 1)]; when
    [width > 10 * (cols - 1)] the right edge is the image width exactly.
    Likewise the bottom edge of the last row is [max(height, y + 1)], and the
    image height exactly when [height > 10 * (rows - 1)].  The values are
    those of the binary64 arithmetic of the loop.  With [width = 301] and
    three even columns the widths are 100, 100, 101. *)
Theorem last_edge_reaches_image (imgWidth imgHeight : Z) (rows cols : nat)
    (rowSplits colSplits : list number) :
  (1 <= rows <= 8)%nat -> (1 <= cols <= 8)%nat ->
  length rowSplits = (rows - 1)%nat -> length colSplits = (cols - 1)%nat ->
  spaced 0.0495 0 rowSplits -> spaced 0.0495 0 colSplits ->
  (1 <= imgHeight < 2 ^ 32)%Z -> (1 <= imgWidth < 2 ^ 32)%Z ->
  let slices := Double.sliceGrid imgWidth imgHeight rows cols rowSplits colSplits in
  (forall r, (r < rows)%nat ->
     exists s x,
       nth_error slices (r * cols + (cols - 1)) = Some s
       /\ row s = r /\ col s = (cols - 1)%nat /\ startX s = ofZ x
       /\ numEq (rightEdge s) (ofZ (Z.max imgWidth (x + 1)))
       /\ ((10 * (Z.of_nat cols - 1) < imgWidth)%Z ->
           numEq (rightEdge s) (ofZ imgWidth)))
  /\ (forall c, (c < cols)%nat ->
        exists s y,
          nth_error slices ((rows - 1) * cols + c) = Some s
          /\ row s = (rows - 1)%nat /\ col s = c /\ startY s = ofZ y
          /\ numEq (bottomEdge s) (ofZ (Z.max imgHeight (y + 1)))
          /\ ((10 * (Z.of_nat rows - 1) < imgHeight)%Z ->
              numEq (bottomEdge s) (ofZ imgHeight)))
  /\ map sliceWidth (firstn 3 (Double.evenGrid 301 300 3 3))
     = [Num 100; Num 100; Num 101].
Proof.
  intros Hr Hc Lr Lc Sr Sc HH HW slices.
  subst slices.
  rewrite (sliceGrid_double imgWidth imgHeight rows cols rowSplits colSplits
             Hr Hc Lr Lc Sr Sc HH HW).
  destruct (axis_double imgWidth cols colSplits Hc Lc Sc HW) as (_ & _ & Xn & Ix).
  destruct (axis_double imgHeight rows rowSplits Hr Lr Sr HH) as (_ & _ & Yn & Iy).
  set (rowSizes := Double.sizesOf imgHeight
                     (Double.buildFractions (Double.buildStops (ofNat rows) rowSplits))) in *.
  set (colSizes := Double.sizesOf imgWidth
                     (Double.buildFractions (Double.buildStops (ofNat cols) colSplits))) in *.
  set (zx := Double.zEdge imgWidth cols colSizes) in *.
  set (zy := Double.zEdge imgHeight rows rowSizes) in *.
  split; [| split; [| vm_compute; reflexivity]].
  - intros r Hr'.
    rewrite (nth_error_table (cellRect zx zy) cols rows r (cols - 1)) by lia.
    eexists. exists (zx (cols - 1)%nat). split; [reflexivity |].
    cbn [cellRect rect row col startX]. split; [reflexivity |]. split; [reflexivity |].
    split; [reflexivity |].
    unfold rightEdge, cellRect, rect. cbn [startX sliceWidth].
    replace (S (cols - 1)) with cols by lia. rewrite Xn.
    split; [apply edge_of_rect |].
    intros Room. specialize (Ix Room (cols - 1)%nat ltac:(lia)).
    replace (S (cols - 1)) with cols in Ix by lia. rewrite Xn in Ix.
    pose proof (edge_of_rect (zx (cols - 1)%nat) imgWidth) as E.
    rewrite (Z.max_l _ (_ + 1)) in E by lia. exact E.
  - intros c Hc'.
    rewrite (nth_error_table (cellRect zx zy) cols rows (rows - 1) c) by lia.
    eexists. exists (zy (rows - 1)%nat). split; [reflexivity |].
    cbn [cellRect rect row col startY]. split; [reflexivity |]. split; [reflexivity |].
    split; [reflexivity |].
    unfold bottomEdge, cellRect, rect. cbn [startY sliceHeight].
    replace (S (rows - 1)) with rows by lia. rewrite Yn.
    split; [apply edge_of_rect |].
    intros Room. specialize (Iy Room (rows - 1)%nat ltac:(lia)).
    replace (S (rows - 1)) with rows in Iy by lia. rewrite Yn in Iy.
    pose proof (edge_of_rect (zy (rows - 1)%nat) imgHeight) as E.
    rewrite (Z.max_l _ (_ + 1)) in E by lia. exact E.
Qed.

Lemma last_cell_301_witness :
  (1 <= 3 <= 8)%nat /\ length (Double.evenSplits 3) = (3 - 1)%nat
  /\ spaced 0.0495 0 (Double.evenSplits 3)
  /\ (1 <= 301 < 2 ^ 32)%Z /\ (10 * (Z.of_nat 3 - 1) < 301)%Z
  /\ (exists s, nth_error (Double.evenGrid 301 301 3 3) (0 * 3 + (3 - 1)) = Some s
                /\ row s = 0%nat /\ numEq (rightEdge s) (ofZ 301))
  /\ (exists s, nth_error (Double.evenGrid 301 301 3 3) ((3 - 1) * 3 + 2) = Some s
                /\ col s = 2%nat /\ numEq (bottomEdge s) (ofZ 301)).
Proof.
  assert (Hn : (1 <= 3 <= 8)%nat) by lia.
  assert (HL : length (Double.evenSplits 3) = (3 - 1)%nat) by reflexivity.
  assert (HS : spaced 0.0495 0 (Double.evenSplits 3)).
  { vm_compute. repeat split; intros H; discriminate H. }
  assert (HT : (1 <= 301 < 2 ^ 32)%Z) by (split; [discriminate | reflexivity]).
  assert (HR : (10 * (Z.of_nat 3 - 1) < 301)%Z) by reflexivity.
  split; [exact Hn |]. split; [exact HL |]. split; [exact HS |].
  split; [exact HT |]. split; [exact HR |].
  destruct (last_edge_reaches_image 301 301 3 3 (Double.evenSplits 3) (Double.evenSplits 3)
              Hn Hn HL HL HS HS HT HT) as (Hcol & Hrow & _).
  split.
  - destruct (Hcol 0%nat ltac:(lia)) as (s & x & E & R & _ & _ & _ & Ex).
    exists s. split; [exact E |]. split; [exact R | exact (Ex HR)].
  - destruct (Hrow 2%nat ltac:(lia)) as (s & y & E & _ & C & _ & _ & Ey).
    exists s. split; [exact E |]. split; [exact C | exact (Ey HR)].
Defined.

(** On small images the last cell can start beyond the image: in a
    12 x 12 image cut into 8 x 8 even cells every boundary but the last is
    rounded up, the last cell starts at pixel 14 and ends at pixel 15, not
    at 12.  And breakpoints that are not increasing leave no room for the
    last cell whatever the size of the image: with the breakpoints 1 and 0
    the third of three columns of a 300 x 300 image starts at pixel 300
    and ends at pixel 301. *)
Lemma last_cell_overshoot_counterexample :
  let s := nth 63 (Double.evenGrid 12 12 8 8) (rect 0 0 0 0 0 0) in
  let s' := nth 2 (Double.sliceGrid 300 300 1 3 [] [Num 1; Num 0]) (rect 0 0 0 0 0 0) in
  spaced 0.0495 0 (Double.evenSplits 8)
  /\ row s = 7%nat /\ col s = 7%nat
  /\ startX s = Num 14 /\ sliceWidth s = Num 1
  /\ ~ numEq (rightEdge s) (ofZ 12)
  /\ ~ numEq (bottomEdge s) (ofZ 12)
  /\ col s' = 2%nat /\ startX s' = Num 300 /\ sliceWidth s' = Num 1
  /\ ~ numEq (rightEdge s') (ofZ 300).
Proof.
  cbv zeta.
  split; [vm_compute; repeat split; intros H; discriminate H |].
  split; [vm_compute; reflexivity |]. split; [vm_compute; reflexivity |].
  split; [vm_compute; reflexivity |]. split; [vm_compute; reflexivity |].
  split; [vm_compute; intros H; discriminate H |].
  split; [vm_compute; intros H; discriminate H |].
  split; [vm_compute; reflexivity |]. split; [vm_compute; reflexivity |].
  split; [vm_compute; reflexivity |].
  vm_compute; intros H; discriminate H.
Qed.

(** The boundaries are those of the rounded products: the double nearest
    to [17/102] times 51 is 8.5, which [Math.round] takes to 9, while the
    exact product is below 8.5. *)
Example boundary_of_rounded_product :
  map sliceWidth (Double.sliceGrid 51 10 1 2 [] [toDouble (17 # 102)])
  = [Num 9; Num 42]
  /\ map sliceWidth (Double.sliceGrid 15 10 1 2 [] [toDouble (3 # 10)])
     = [Num 5; Num 10].
Proof. split; vm_compute; reflexivity. Qed.

(** C2 (amended).  For every grid of [rows] x [cols] cells, 1 <= rows,
    cols <= 8, with valid breakpoints (one per inner boundary, strictly
    increasing, keeping a gap of at least 0.0495 to their neighbours and to
    both ends, as every stored set of breakpoints does) and every image
    with [height > 10 * (rows - 1)] and [width > 10 * (cols - 1)] (both
    below 2^32, as the sizes of an image element are), the [rows * cols]
    rectangles the slicing loop computes in binary64 arithmetic partition
    the pixel space: every pixel of the image lies in
    exactly one rectangle and no rectangle holds a point outside the image.
    For a 300 x 300 image and the even 3 x 3 grid the result is nine
    rectangles of 100 x 100 at (0,0), (100,0), (200,0), (0,100), ... *)
Theorem slices_partition_image (imgWidth imgHeight : Z) (rows cols : nat)
    (rowSplits colSplits : list number) :
  (1 <= rows <= 8)%nat -> (1 <= cols <= 8)%nat ->
  length rowSplits = (rows - 1)%nat -> length colSplits = (cols - 1)%nat ->
  spaced 0.0495 0 rowSplits -> spaced 0.0495 0 colSplits ->
  (10 * (Z.of_nat rows - 1) < imgHeight < 2 ^ 32)%Z ->
  (10 * (Z.of_nat cols - 1) < imgWidth < 2 ^ 32)%Z ->
  let slices := Double.sliceGrid imgWidth imgHeight rows cols rowSplits colSplits in
  length slices = (rows * cols)%nat
  /\ (forall px py : Z,
        coverage px py slices
        = if ((0 <=? px) && (px <? imgWidth) && (0 <=? py) && (py <? imgHeight))%Z
          then 1%nat else 0%nat)
  /\ Double.evenGrid 300 300 3 3
     = [rect 0 0 0 0 100 100; rect 0 1 100 0 100 100; rect 0 2 200 0 100 100;
        rect 1 0 0 100 100 100; rect 1 1 100 100 100 100; rect 1 2 200 100 100 100;
        rect 2 0 0 200 100 100; rect 2 1 100 200 100 100; rect 2 2 200 200 100 100].
Proof.
  intros Hr Hc Lr Lc Sr Sc [RoomY HH] [RoomX HW] slices.
  assert (HH' : (1 <= imgHeight < 2 ^ 32)%Z) by lia.
  assert (HW' : (1 <= imgWidth < 2 ^ 32)%Z) by lia.
  subst slices.
  rewrite (sliceGrid_double imgWidth imgHeight rows cols rowSplits colSplits
             Hr Hc Lr Lc Sr Sc HH' HW').
  destruct (axis_double imgWidth cols colSplits Hc Lc Sc HW') as (_ & X0 & Xn & Ix).
  destruct (axis_double imgHeight rows rowSplits Hr Lr Sr HH') as (_ & Y0 & Yn & Iy).
  specialize (Ix RoomX). specialize (Iy RoomY).
  set (rowSizes := Double.sizesOf imgHeight
                     (Double.buildFractions (Double.buildStops (ofNat rows) rowSplits))) in *.
  set (colSizes := Double.sizesOf imgWidth
                     (Double.buildFractions (Double.buildStops (ofNat cols) colSplits))) in *.
  set (zx := Double.zEdge imgWidth cols colSizes) in *.
  set (zy := Double.zEdge imgHeight rows rowSizes) in *.
  split; [apply table_length |]. split; [| vm_compute; reflexivity].
  intros px py. unfold coverage.
  rewrite (coverage_table rows cols zx zy Ix Iy px py (seq 0 rows))
    by (intros r H; apply in_seq in H; lia).
  destruct (count_band zy py rows) as [_ Cy].
  { intros k Hk. specialize (Iy k Hk). lia. }
  destruct (count_band zx px cols) as [_ Cx].
  { intros k Hk. specialize (Ix k Hk). lia. }
  rewrite Cy, Cx, Y0, Yn, X0, Xn.
  destruct (0 <=? px)%Z, (px <? imgWidth)%Z, (0 <=? py)%Z, (py <? imgHeight)%Z;
    reflexivity.
Qed.

Lemma partition_301_witness :
  (1 <= 3 <= 8)%nat /\ length (Double.evenSplits 3) = (3 - 1)%nat
  /\ spaced 0.0495 0 (Double.evenSplits 3)
  /\ (10 * (Z.of_nat 3 - 1) < 301 < 2 ^ 32)%Z
  /\ length (Double.evenGrid 301 301 3 3) = 9%nat
  /\ coverage 300 100 (Double.evenGrid 301 301 3 3) = 1%nat
  /\ coverage 301 100 (Double.evenGrid 301 301 3 3) = 0%nat.
Proof.
  assert (Hn : (1 <= 3 <= 8)%nat) by lia.
  assert (HL : length (Double.evenSplits 3) = (3 - 1)%nat) by reflexivity.
  assert (HS : spaced 0.0495 0 (Double.evenSplits 3)).
  { vm_compute. repeat split; intros H; discriminate H. }
  assert (HR : (10 * (Z.of_nat 3 - 1) < 301 < 2 ^ 32)%Z) by (split; reflexivity).
  split; [exact Hn |]. split; [exact HL |]. split; [exact HS |]. split; [exact HR |].
  destruct (slices_partition_image 301 301 3 3 (Double.evenSplits 3) (Double.evenSplits 3)
              Hn Hn HL HL HS HS HR HR) as (Hlen & Hcov & _).
  split; [exact Hlen |]. split.
  - exact (Hcov 300%Z 100%Z).
  - exact (Hcov 301%Z 100%Z).
Defined.

(** On small images the rectangles overlap: the even 3 x 3 grid has
    valid breakpoints, yet over a 1 x 1 image all nine rectangles are the
    pixel (0, 0) itself. *)
Lemma nine_on_one_pixel_counterexample :
  spaced 0.0495 0 (Double.evenSplits 3)
  /\ Double.evenGrid 1 1 3 3
     = [rect 0 0 0 0 1 1; rect 0 1 0 0 1 1; rect 0 2 0 0 1 1;
        rect 1 0 0 0 1 1; rect 1 1 0 0 1 1; rect 1 2 0 0 1 1;
        rect 2 0 0 0 1 1; rect 2 1 0 0 1 1; rect 2 2 0 0 1 1]
  /\ coverage 0 0 (Double.evenGrid 1 1 3 3) = 9%nat
  /\ coverage 0 0 (Double.evenGrid 1 1 3 3) <> 1%nat.
Proof.
  split; [vm_compute; repeat split; intros H; discriminate H |].
  split; [vm_compute; reflexivity |]. split; [vm_compute; reflexivity |].
  vm_compute. discriminate.
Qed.

Local Close Scope Q_scope.
